(** * Packed labels, the stamped label container and the system-optimum
      objective function of the routing framework

    Shallow embedding of
      - [Tools/Constants.h]                                   ([INFTY]),
      - [DataStructures/Labels/BasicLabelSet.h]               ([LabelMask],
        [DistanceLabel], [ParentEdge], [ParentVertex]),
      - [DataStructures/Labels/Containers/StampedDistanceLabelContainer.h],
      - [Algorithms/TrafficAssignment/ObjectiveFunctions/SystemOptimum.h].

    Conventions.  A C++ [int] is a [Z].  A [std::array<T, K>] is a
    [vec T K]; a [std::vector<T>] is a [list T].  A failed [assert], an
    unchecked access outside an array, a failed allocation and the
    increment of the clock beyond the largest [int] (signed overflow,
    which C++ leaves undefined) are results of type [outcome].  Storage
    that the code leaves uninitialized is a parameter of the constructor
    that leaves it so.  The sequential configuration ([par = false]) is
    modelled: every cell is a plain [int]. *)

From Stdlib Require Import ZArith Lia SpecFloat.
From stdpp Require Import base option list vector finite gmap.

Local Open Scope Z_scope.

(** ** Results of calls that can go wrong *)

Inductive fault : Set :=
| assert_nonneg        (* assert(i >= 0), assert(v >= 0) *)
| assert_in_range      (* assert(i < K), assert(v < distanceLabels.size()) *)
| assert_stamp_behind  (* assert(timestamps[v] < clock) *)
| invalid_access       (* unchecked access outside an array or object *)
| length_error         (* std::vector constructed with a negative size *)
| signed_overflow.     (* ++clock on the largest int: undefined in C++ *)

Inductive outcome (A : Type) : Type :=
| Ok (a : A)
| Fault (f : fault).
Arguments Ok {A} a.
Arguments Fault {A} f.

#[global] Instance outcome_ret : MRet outcome := fun _ a => Ok a.
#[global] Instance outcome_bind : MBind outcome :=
  fun _ _ k m => match m with Ok a => k a | Fault f => Fault f end.

(** ** Integers and indices *)

(** [std::numeric_limits<int>::max()] and [::min()] for a 32-bit [int]. *)
Definition INT_MAX : Z := 2147483647.
Definition INT_MIN : Z := -2147483648.

(** The value an [int] holds after an arithmetic result [z] is reduced to
    32 bits, two's complement. *)
Definition wrap_int (z : Z) : Z := (z - INT_MIN) mod 2 ^ 32 + INT_MIN.

(** Tools/Constants.h: a special value representing infinity. *)
Definition INFTY : Z := INT_MAX / 2.

(** The component index below [n] that a natural number denotes, if any. *)
Fixpoint fin_of_nat (i n : nat) {struct n} : option (fin n) :=
  match n with
  | O => None
  | S n' => match i with
            | O => Some 0%fin
            | S i' => FS <$> fin_of_nat i' n'
            end
  end.

(** [std::fill(first, last, val)] over a whole vector. *)
Definition std_fill {A} (l : list A) (val : A) : list A :=
  replicate (length l) val.

(** The element of a [std::vector] at an [int] position, unchecked. *)
Definition vector_at {A} (l : list A) (v : Z) : outcome A :=
  if v <? 0 then Fault invalid_access
  else match l !! Z.to_nat v with
       | Some a => Ok a
       | None => Fault invalid_access
       end.

Section PackedArrays.
Context {K : nat}.

(** [for (int i = 0; i < K; ++i) body], threading the state [s]. *)
Definition for_each_component {S : Type} (body : S → fin K → S) (s : S) : S :=
  foldl body s (enum (fin K)).

(** [assert(i >= 0); assert(i < K); return a[i];] *)
Definition checked_at {A} (a : vec A K) (i : Z) : outcome A :=
  if i <? 0 then Fault assert_nonneg
  else match fin_of_nat (Z.to_nat i) K with
       | Some j => Ok (a !!! j)
       | None => Fault assert_in_range
       end.

End PackedArrays.

(** ** BasicLabelSet::LabelMask *)

Module LabelMask.

(** [std::array<bool, K> isMarked]. *)
Abbreviation t K := (vec bool K).

Section Ops.
Context {K : nat}.

(** [LabelMask() = default;] "Constructs an uninitialized mask": the
    object is whatever its storage [isMarked0] held. *)
Definition default_ctor (isMarked0 : t K) : t K := isMarked0.

(** [explicit LabelMask(const int i)]: fill with [false], then
    [isMarked[i] = true], with no check on [i]. *)
Definition index_ctor (isMarked0 : t K) (i : Z) : outcome (t K) :=
  let isMarked := vreplicate K false in
  if i <? 0 then Fault invalid_access
  else match fin_of_nat (Z.to_nat i) K with
       | Some j => Ok (vinsert j true isMarked)
       | None => Fault invalid_access
       end.

(** [bool operator[](const int i) const]. *)
Definition at_ (m : t K) (i : Z) : outcome bool := checked_at m i.

(** [bool& operator[](const int i)], used to write [b]. *)
Definition set_at (m : t K) (i : Z) (b : bool) : outcome (t K) :=
  if i <? 0 then Fault assert_nonneg
  else match fin_of_nat (Z.to_nat i) K with
       | Some j => Ok (vinsert j b m)
       | None => Fault assert_in_range
       end.

(** [operator bool() const]: [res = isMarked[0]], then [res |= isMarked[i]]
    for [i = 1 .. K-1]. *)
Definition to_bool (m : t K) : outcome bool :=
  match vec_to_list m with
  | [] => Fault invalid_access
  | res :: rest => Ok (foldl orb res rest)
  end.

End Ops.
End LabelMask.

(** ** BasicLabelSet::DistanceLabel *)

Module DistanceLabel.

(** [std::array<DistanceValue, K> values]. *)
Abbreviation t K := (vec Z K).

(** Labels live in objects; a method call names its receiver and its
    reference argument by their addresses, which may coincide. *)
Abbreviation addr := positive.
Abbreviation memory K := (gmap positive (vec Z K)).

Section Ops.
Context {K : nat}.

(** [DistanceLabel() = default;] "Constructs an uninitialized distance
    label": the object is whatever its storage [values0] held. *)
Definition default_ctor (values0 : t K) : t K := values0.

(** [DistanceLabel& operator=(const int val)]: [std::fill] of all [K]
    values. *)
Definition assign (this : t K) (val : Z) : t K := vreplicate K val.

(** [DistanceLabel(const int val) { *this = val; }] *)
Definition of_int (values0 : t K) (val : Z) : t K := assign values0 val.

(** [DistanceLabel(const DistanceLabel& other)]. *)
Definition copy_ctor (values0 : t K) (other : t K) : t K :=
  for_each_component (fun (values : vec Z K) (i : fin K) => vinsert i (other !!! i) values) values0.

(** [DistanceValue& operator[](const int i)], used to read. *)
Definition at_ (this : t K) (i : Z) : outcome Z := checked_at this i.

(** One iteration of the loop of [min]:
    [values[i] = std::min(values[i].load(), other.values[i].load())],
    both operands read from memory as it is at that iteration. *)
Definition min_body (this other : addr) (st : outcome (memory K)) (i : fin K)
  : outcome (memory K) :=
  mem ← st;
  match mem !! this, mem !! other with
  | Some values, Some other_values =>
      Ok (<[this := vinsert i (Z.min (values !!! i) (other_values !!! i)) values]> mem)
  | _, _ => Fault invalid_access
  end.

(** [void min(const DistanceLabel& other)]. *)
Definition min (this other : addr) (mem : memory K) : outcome (memory K) :=
  for_each_component (min_body this other) (Ok mem).

(** [DistanceLabel operator+(const int rhs) const]: a fresh label [sum],
    left uninitialized on storage [sum0], then [sum[i] = values[i] + rhs]
    for every [i], the addition being one of [int]s. *)
Definition plus (sum0 : t K) (this : t K) (rhs : Z) : t K :=
  for_each_component
    (fun (sum : vec Z K) (i : fin K) => vinsert i (wrap_int (this !!! i + rhs)) sum)
    (default_ctor sum0).

(** [friend LabelMask operator<(lhs, rhs)]: a fresh mask, left
    uninitialized on storage [mask0], then
    [mask[i] = lhs.values[i] < rhs.values[i]] for every [i]. *)
Definition less (mask0 : LabelMask.t K) (lhs rhs : t K) : LabelMask.t K :=
  for_each_component
    (fun (mask : vec bool K) (i : fin K) => vinsert i (lhs !!! i <? rhs !!! i) mask)
    (LabelMask.default_ctor mask0).

(** [int getKey() const]: [min = values[0]], then
    [min = std::min(min, values[i])] for [i = 1 .. K-1]. *)
Definition getKey (this : t K) : outcome Z :=
  match vec_to_list this with
  | [] => Fault invalid_access
  | v0 :: rest => Ok (foldl Z.min v0 rest)
  end.

End Ops.
End DistanceLabel.

(** ** BasicLabelSet::ParentVertex, with FULL_PARENT_INFO

    [ParentVertex] derives from [ParentEdge] when [KEEP_PARENT_EDGES]
    holds, so an object carries both arrays. *)

Module ParentVertex.

Record t (K : nat) : Type := Build {
  edges : vec Z K;     (* ParentEdge: the k parent edges *)
  vertices : vec Z K   (* ParentVertex: the k parent vertices *)
}.
Arguments Build {K} edges vertices.
Arguments edges {K} _.
Arguments vertices {K} _.

Section Ops.
Context {K : nat}.

(** [int edge(const int i) const]. *)
Definition edge (this : t K) (i : Z) : outcome Z := checked_at (edges this) i.

(** [void setEdge(const int e, const LabelMask& mask)]:
    [edges[i] = mask[i] ? e : edges[i]] for every [i]. *)
Definition setEdge (e : Z) (mask : LabelMask.t K) (this : t K) : t K :=
  Build
    (for_each_component
       (fun (es : vec Z K) (i : fin K) => vinsert i (if (mask !!! i : bool) then e else es !!! i) es)
       (edges this))
    (vertices this).

(** [int vertex(const int i) const]. *)
Definition vertex (this : t K) (i : Z) : outcome Z := checked_at (vertices this) i.

(** [void setVertex(const int u, const LabelMask& mask)]:
    [vertices[i] = mask[i] ? u : vertices[i]] for every [i]. *)
Definition setVertex (u : Z) (mask : LabelMask.t K) (this : t K) : t K :=
  Build
    (edges this)
    (for_each_component
       (fun (vs : vec Z K) (i : fin K) => vinsert i (if (mask !!! i : bool) then u else vs !!! i) vs)
       (vertices this)).

End Ops.
End ParentVertex.

(** ** StampedDistanceLabelContainer *)

Module StampedDistanceLabelContainer.

Record t (K : nat) : Type := Build {
  distanceLabels : list (vec Z K);  (* the distance labels of the vertices *)
  timestamps : list Z;              (* the timestamps *)
  clock : Z                         (* the global clock *)
}.
Arguments Build {K} distanceLabels timestamps clock.
Arguments distanceLabels {K} _.
Arguments timestamps {K} _.
Arguments clock {K} _.

Section Ops.
Context {K : nat}.

(** The label the [int] constant [INFTY] converts to. *)
Definition INFTY_label : DistanceLabel.t K := vreplicate K INFTY.

(** [explicit StampedDistanceLabelContainer(const int numVertices)]:
    both vectors get [numVertices] elements, whose contents before the
    fill are [labels0] and [stamps0]; the timestamps are then filled with
    0 and the clock starts at 0. *)
Definition construct (numVertices : Z)
    (labels0 : nat → DistanceLabel.t K) (stamps0 : nat → Z) : outcome (t K) :=
  if numVertices <? 0 then Fault length_error
  else
    let slots := seq 0 (Z.to_nat numVertices) in
    Ok (Build (labels0 <$> slots) (std_fill (stamps0 <$> slots) 0) 0).

(** [void init()]: [++clock], and on a negative clock the full clear.
    The increment of a clock that holds the largest [int] overflows a
    signed integer: the language gives the call no meaning there, and
    nothing lets the test [clock < 0] that follows see a wrapped value. *)
Definition init (c : t K) : outcome (t K) :=
  if INT_MAX <=? clock c then Fault signed_overflow
  else
    let clock' := clock c + 1 in
    if clock' <? 0
    then Ok (Build (distanceLabels c) (std_fill (timestamps c) 0) 1)
    else Ok (Build (distanceLabels c) (timestamps c) clock').

(** [DistanceLabelT& operator[](const int v)]: the container after the
    call; the reference returned is the slot [v] of [distanceLabels]. *)
Definition index (c : t K) (v : Z) : outcome (t K) :=
  if v <? 0 then Fault assert_nonneg
  else if Z.of_nat (length (distanceLabels c)) <=? v then Fault assert_in_range
  else
    ts ← vector_at (timestamps c) v;
    if ts =? clock c then Ok c
    else if negb (ts <? clock c) then Fault assert_stamp_behind
    else
      L ← vector_at (distanceLabels c) v;
      Ok (Build (<[Z.to_nat v := DistanceLabel.assign L INFTY]> (distanceLabels c))
                (<[Z.to_nat v := clock c]> (timestamps c))
                (clock c)).

(** A caller's assignment of [L] through the reference that
    [operator[](v)] returned. *)
Definition store (c : t K) (v : Z) (L : DistanceLabel.t K) : outcome (t K) :=
  _ ← vector_at (distanceLabels c) v;
  Ok (Build (<[Z.to_nat v := L]> (distanceLabels c)) (timestamps c) (clock c)).

(** [DistanceLabelT get(const int v) const]. *)
Definition get (c : t K) (v : Z) : outcome (DistanceLabel.t K) :=
  ts ← vector_at (timestamps c) v;
  if ts =? clock c then vector_at (distanceLabels c) v
  else Ok INFTY_label.

(** The calls a search driver makes on a container. *)
Inductive call : Type :=
| Init
| MutIndex (v : Z)
| Store (v : Z) (L : DistanceLabel.t K)
| Get (v : Z).

Definition step (c : t K) (op : call) : outcome (t K) :=
  match op with
  | Init => init c
  | MutIndex v => index c v
  | Store v L => store c v L
  | Get v => _ ← get c v; Ok c
  end.

Fixpoint run (ops : list call) (c : t K) : outcome (t K) :=
  match ops with
  | [] => Ok c
  | op :: ops' => c' ← step c op; run ops' c'
  end.

(** [ops] makes no mutable index access to vertex [v]. *)
Definition untouched (v : Z) (ops : list call) : Prop :=
  Forall (fun op => op ≠ MutIndex v) ops.

(** [ops] stays within one generation and leaves the slot of [v] alone. *)
Definition same_generation (v : Z) (ops : list call) : Prop :=
  Forall (fun op => match op with
                    | Init => False
                    | Store u _ => u ≠ v
                    | _ => True
                    end) ops.

(** The containers a driver can hold: constructed, then used through its
    calls. *)
Inductive reachable : t K → Prop :=
| reachable_construct n labels0 stamps0 c :
    construct n labels0 stamps0 = Ok c → reachable c
| reachable_step c op c' :
    reachable c → step c op = Ok c' → reachable c'.

(** The number of [init] calls among [ops]. *)
Fixpoint resets (ops : list call) : nat :=
  match ops with
  | [] => O
  | Init :: ops' => S (resets ops')
  | _ :: ops' => resets ops'
  end.

(** Every vertex that [ops] names is one of the [n] vertices. *)
Definition within (n : Z) (ops : list call) : Prop :=
  Forall (fun op => match op with
                    | Init => True
                    | MutIndex v | Store v _ | Get v => 0 ≤ v < n
                    end) ops.

(** No timestamp is ahead of the clock. *)
Definition stamps_behind (c : t K) : Prop :=
  Forall (fun ts => ts ≤ clock c) (timestamps c).

(** The clock is a non-negative [int] and no timestamp is ahead of it. *)
Definition clock_ahead (c : t K) : Prop :=
  0 ≤ clock c ≤ INT_MAX ∧ stamps_behind c.

(** What construction establishes and every call keeps. *)
Definition well_formed (c : t K) : Prop :=
  length (timestamps c) = length (distanceLabels c) ∧ clock_ahead c.

(** Vertex [v] has a slot, and its label is not valid under the clock. *)
Definition stale (c : t K) (v : Z) : Prop :=
  0 ≤ v ∧ ∃ ts, timestamps c !! Z.to_nat v = Some ts ∧ ts < clock c.

(** Vertex [v] has a slot holding [L], valid under the clock. *)
Definition holds (c : t K) (v : Z) (L : DistanceLabel.t K) : Prop :=
  0 ≤ v
  ∧ timestamps c !! Z.to_nat v = Some (clock c)
  ∧ distanceLabels c !! Z.to_nat v = Some L.

End Ops.
End StampedDistanceLabelContainer.

(** ** XatfRoadCategoryAttribute *)

Module XatfRoadCategoryAttribute.

(** [enum class XatfRoadCategory]. *)
Inductive XatfRoadCategory : Set :=
| MOTORWAY_FAST | MOTORWAY_MEDIUM | MOTORWAY_SLOW
| NATIONAL_ROAD_FAST | NATIONAL_ROAD_MEDIUM | NATIONAL_ROAD_SLOW
| REGIONAL_ROAD_FAST | REGIONAL_ROAD_MEDIUM | REGIONAL_ROAD_SLOW
| URBAN_STREET_FAST | URBAN_STREET_MEDIUM | URBAN_STREET_SLOW
| FERRY | UNUSED | FOREST_ROAD.

(** The enumerator values. *)
Definition value (c : XatfRoadCategory) : Z :=
  match c with
  | MOTORWAY_FAST => 1 | MOTORWAY_MEDIUM => 2 | MOTORWAY_SLOW => 3
  | NATIONAL_ROAD_FAST => 4 | NATIONAL_ROAD_MEDIUM => 5 | NATIONAL_ROAD_SLOW => 6
  | REGIONAL_ROAD_FAST => 7 | REGIONAL_ROAD_MEDIUM => 8 | REGIONAL_ROAD_SLOW => 9
  | URBAN_STREET_FAST => 10 | URBAN_STREET_MEDIUM => 11 | URBAN_STREET_SLOW => 12
  | FERRY => 13 | UNUSED => 14 | FOREST_ROAD => 15
  end.

(** [static constexpr Type DEFAULT_VALUE = XatfRoadCategory::UNUSED]. *)
Definition DEFAULT_VALUE : XatfRoadCategory := UNUSED.

(** The attribute object is the vector [values] that the base class
    [AbstractAttribute<XatfRoadCategory>] declares, one entry per edge. *)
Abbreviation t := (list XatfRoadCategory).

(** [Type xatfRoadCategory(const int e) const]. *)
Definition xatfRoadCategory (values : t) (e : Z) : outcome XatfRoadCategory :=
  if e <? 0 then Fault assert_nonneg
  else if Z.of_nat (length values) <=? e then Fault assert_in_range
  else vector_at values e.

(** [void setXatfRoadCategory(const int e, const Type val)]. *)
Definition setXatfRoadCategory (values : t) (e : Z) (val : XatfRoadCategory)
  : outcome t :=
  if e <? 0 then Fault assert_nonneg
  else if Z.of_nat (length values) <=? e then Fault assert_in_range
  else Ok (<[Z.to_nat e := val]> values).

End XatfRoadCategoryAttribute.

(** ** SystemOptimum *)

Module SystemOptimum.

(** The C++ [float] is IEEE 754 binary32: 24 bits of precision, maximal
    exponent 128, operations rounded to nearest even. *)
Abbreviation float := spec_float.
Definition fadd : float → float → float := SFadd 24 128.
Definition fmul : float → float → float := SFmul 24 128.
Definition float_of_Z (z : Z) : float := binary_normalize 24 128 z 0 false.

(** vectorclass's [Vec8f]: eight [float] lanes, [+] and [*] lane by lane. *)
Abbreviation Vec8f := (vec spec_float 8).
Definition Vec8f_add : Vec8f → Vec8f → Vec8f := vzip_with fadd.
Definition Vec8f_mul : Vec8f → Vec8f → Vec8f := vzip_with fmul.

(** The interface [TravelCostFunctionT] has to offer: the call operator
    and [derivative], each for one flow and for eight. *)
Record TravelCostFunction : Type := {
  cost : Z → float → float;
  derivative : Z → float → float;
  cost8 : Z → Vec8f → Vec8f;
  derivative8 : Z → Vec8f → Vec8f
}.

Section Ops.
Context (travelCostFunction : TravelCostFunction).

(** [float getEdgeWeight(const int e, const float x) const]. *)
Definition getEdgeWeight (e : Z) (x : float) : float :=
  fadd (cost travelCostFunction e x)
       (fmul x (derivative travelCostFunction e x)).

(** [Vec8f getEdgeWeights(const int e, const Vec8f& x) const]. *)
Definition getEdgeWeights (e : Z) (x : Vec8f) : Vec8f :=
  Vec8f_add (cost8 travelCostFunction e x)
            (Vec8f_mul x (derivative8 travelCostFunction e x)).

(** The vector overloads agree with the scalar ones: lane [i] of a call
    for the eight consecutive edges starting at [e] is the scalar call
    for edge [e + i] on lane [i] of the flows. *)
Definition lanewise : Prop :=
  ∀ (e : Z) (x : Vec8f) (i : fin 8),
    cost8 travelCostFunction e x !!! i
      = cost travelCostFunction (e + Z.of_nat (fin_to_nat i)) (x !!! i)
    ∧ derivative8 travelCostFunction e x !!! i
      = derivative travelCostFunction (e + Z.of_nat (fin_to_nat i)) (x !!! i).

End Ops.

(** The functor of the concrete scenario: cost(e, x) = a*x + b, with
    derivative a, and vector overloads working lane by lane. *)
Definition linear (a b : float) : TravelCostFunction := {|
  cost := fun _ x => fadd (fmul a x) b;
  derivative := fun _ _ => a;
  cost8 := fun _ x => vmap (fun xi => fadd (fmul a xi) b) x;
  derivative8 := fun _ _ => vreplicate 8 a
|}.

(** Classes of [float] data. *)
Definition is_zero (x : float) : bool :=
  match x with S754_zero _ => true | _ => false end.
Definition is_finite (x : float) : bool :=
  match x with S754_zero _ | S754_finite _ _ _ => true | _ => false end.

End SystemOptimum.

(** * Properties *)

(** ** Indices and loops over the K components *)

Lemma fin_of_nat_to_nat {n} (j : fin n) : fin_of_nat (fin_to_nat j) n = Some j.
Proof.
  induction j as [n|n j IH]; simpl; [done|].
  by rewrite IH.
Qed.

Lemma fin_of_nat_Some i n (j : fin n) :
  fin_of_nat i n = Some j → fin_to_nat j = i.
Proof.
  revert i j. induction n as [|n IH]; intros i j; simpl; [done|].
  destruct i as [|i].
  - by intros [= <-].
  - destruct (fin_of_nat i n) as [j'|] eqn:E; simpl; [|done].
    intros [= <-]. simpl. f_equal. by apply IH.
Qed.

Lemma fin_of_nat_None i n : fin_of_nat i n = None → (n ≤ i)%nat.
Proof.
  revert i. induction n as [|n IH]; intros i; simpl; [lia|].
  destruct i as [|i]; [done|].
  destruct (fin_of_nat i n) eqn:E; simpl; [done|].
  intros _. apply IH in E. lia.
Qed.

Section ComponentLoops.
Context {K : nat}.

Lemma checked_at_fin {A} (a : vec A K) (j : fin K) :
  checked_at a (Z.of_nat (fin_to_nat j)) = Ok (a !!! j).
Proof.
  unfold checked_at.
  destruct (Z.ltb_spec (Z.of_nat (fin_to_nat j)) 0) as [Hneg|_]; [lia|].
  by rewrite Nat2Z.id, fin_of_nat_to_nat.
Qed.

(** A loop that rewrites component [i] from its own old value only. *)
Lemma foldl_vinsert_lookup {A} (f : fin K → A → A) (l : list (fin K))
    (a : vec A K) (j : fin K) :
  NoDup l →
  let a' := foldl (fun acc i => vinsert i (f i (acc !!! i)) acc) a l in
  (j ∈ l → a' !!! j = f j (a !!! j)) ∧ (j ∉ l → a' !!! j = a !!! j).
Proof.
  revert a. induction l as [|i l IH]; intros a Hnd; cbn zeta.
  - split; [by intros ?%elem_of_nil|done].
  - apply NoDup_cons in Hnd as [Hi Hnd]. cbn [foldl].
    destruct (IH (vinsert i (f i (a !!! i)) a) Hnd) as [IHin IHout].
    destruct (decide (j = i)) as [->|Hji].
    + split; [intros _|intros []; left].
      by rewrite IHout, vlookup_insert.
    + split.
      * intros [?|Hin]%elem_of_cons; [done|].
        by rewrite IHin, vlookup_insert_ne.
      * intros Hout. rewrite IHout, vlookup_insert_ne; [done|done|].
        intros ?. apply Hout. by right.
Qed.

Lemma for_each_component_vinsert {A} (f : fin K → A → A) (a : vec A K) (j : fin K) :
  for_each_component (fun acc i => vinsert i (f i (acc !!! i)) acc) a !!! j
  = f j (a !!! j).
Proof.
  unfold for_each_component.
  apply (foldl_vinsert_lookup f (enum (fin K)) a j (NoDup_enum _)), elem_of_enum.
Qed.

End ComponentLoops.

(** ** LabelMask *)

Section LabelMaskProperties.
Context {K : nat}.

Lemma foldl_orb_true (res : bool) (rest : list bool) :
  foldl orb res rest = true ↔ res = true ∨ true ∈ rest.
Proof.
  revert res. induction rest as [|b rest IH]; intros res; simpl.
  - split; [by left|]. intros [?|?%elem_of_nil]; done.
  - rewrite IH, elem_of_cons, orb_true_iff.
    destruct res, b; intuition congruence.
Qed.

(** The conversion to [bool] is the OR of the components. *)
Lemma LabelMask_to_bool_true (m : LabelMask.t K) :
  LabelMask.to_bool m = Ok true ↔ ∃ i, m !!! i = true.
Proof.
  unfold LabelMask.to_bool.
  destruct (vec_to_list m) as [|res rest] eqn:E.
  - split; [done|]. intros [i Hi].
    apply vlookup_lookup in Hi. rewrite E in Hi. done.
  - split.
    + intros [= H]. apply foldl_orb_true in H.
      apply elem_of_vlookup. rewrite E.
      destruct H as [->|H]; [left|by right].
    + intros H. apply elem_of_vlookup in H. rewrite E in H.
      f_equal. apply foldl_orb_true.
      apply elem_of_cons in H as [<-|H]; [by left|by right].
Qed.

Lemma LabelMask_to_bool_total (m : LabelMask.t K) :
  (0 < K)%nat → ∃ b, LabelMask.to_bool m = Ok b.
Proof.
  intros HK. unfold LabelMask.to_bool.
  destruct (vec_to_list m) as [|res rest] eqn:E; [|by eexists].
  apply (f_equal length) in E. rewrite length_vec_to_list in E. simpl in E. lia.
Qed.

(** C7, as stated, fails: the default constructor is documented as
    "Constructs an uninitialized mask" and writes nothing, so on storage
    that held [true; false] the new mask has component 0 marked and
    converts to [true]. *)
Lemma LabelMask_default_ctor_not_all_false :
  @LabelMask.default_ctor 2 [# true; false] !!! 0%fin = true
  ∧ LabelMask.to_bool (@LabelMask.default_ctor 2 [# true; false]) = Ok true
  ∧ ¬ (∀ i, @LabelMask.default_ctor 2 [# true; false] !!! i = false).
Proof.
  split; [reflexivity|]. split; [reflexivity|].
  intros H. specialize (H 0%fin). discriminate H.
Qed.

(** C7, amended: the default constructor leaves the [K] components as
    the storage held them (nothing is cleared); the constructor with an
    index [i] below [K] returns, whatever the storage held, the mask that
    marks component [i] and no other, and that mask converts to [true]. *)
Theorem LabelMask_constructors (isMarked0 : LabelMask.t K) (i : fin K) :
  LabelMask.default_ctor isMarked0 = isMarked0
  ∧ ∃ m, LabelMask.index_ctor isMarked0 (Z.of_nat (fin_to_nat i)) = Ok m
         ∧ (∀ j, m !!! j = bool_decide (j = i))
         ∧ LabelMask.to_bool m = Ok true.
Proof.
  split; [done|].
  exists (vinsert i true (vreplicate K false)).
  assert (Hm : ∀ j, vinsert i true (vreplicate K false) !!! j = bool_decide (j = i)).
  { intros j. destruct (decide (j = i)) as [->|Hji].
    - by rewrite vlookup_insert, bool_decide_eq_true_2.
    - by rewrite vlookup_insert_ne, vlookup_replicate, bool_decide_eq_false_2. }
  split; [|split; [done|]].
  - unfold LabelMask.index_ctor.
    destruct (Z.ltb_spec (Z.of_nat (fin_to_nat i)) 0) as [Hneg|_]; [lia|].
    by rewrite Nat2Z.id, fin_of_nat_to_nat.
  - apply LabelMask_to_bool_true. exists i.
    by rewrite Hm, bool_decide_eq_true_2.
Qed.

End LabelMaskProperties.

(** ** ParentVertex and ParentEdge *)

Section ParentLabelProperties.
Context {K : nat}.

Lemma setEdge_edges (e : Z) (mask : LabelMask.t K) (p : ParentVertex.t K) (i : fin K) :
  ParentVertex.edges (ParentVertex.setEdge e mask p) !!! i
  = if (mask !!! i : bool) then e else ParentVertex.edges p !!! i.
Proof.
  unfold ParentVertex.setEdge. cbn [ParentVertex.edges].
  apply (for_each_component_vinsert (fun i x => if (mask !!! i : bool) then e else x)).
Qed.

Lemma setVertex_vertices (u : Z) (mask : LabelMask.t K) (p : ParentVertex.t K) (i : fin K) :
  ParentVertex.vertices (ParentVertex.setVertex u mask p) !!! i
  = if (mask !!! i : bool) then u else ParentVertex.vertices p !!! i.
Proof.
  unfold ParentVertex.setVertex. cbn [ParentVertex.vertices].
  apply (for_each_component_vinsert (fun i x => if (mask !!! i : bool) then u else x)).
Qed.

(** C8: after [setVertex(u, m)] followed by [setEdge(e, m)], the parent
    vertex and the parent edge of component [i] read [u] and [e] when
    [m[i]] is true, and read what they read before the two calls when
    [m[i]] is false. *)
Theorem setVertex_setEdge_masked (p : ParentVertex.t K) (u e : Z)
    (m : LabelMask.t K) (i : fin K) :
  let p' := ParentVertex.setEdge e m (ParentVertex.setVertex u m p) in
  ParentVertex.vertex p' (Z.of_nat (fin_to_nat i))
    = (if (m !!! i : bool) then Ok u else ParentVertex.vertex p (Z.of_nat (fin_to_nat i)))
  ∧ ParentVertex.edge p' (Z.of_nat (fin_to_nat i))
    = (if (m !!! i : bool) then Ok e else ParentVertex.edge p (Z.of_nat (fin_to_nat i))).
Proof.
  cbn zeta. unfold ParentVertex.vertex, ParentVertex.edge.
  rewrite !checked_at_fin, setEdge_edges.
  change (ParentVertex.vertices (ParentVertex.setEdge e m (ParentVertex.setVertex u m p)))
    with (ParentVertex.vertices (ParentVertex.setVertex u m p)).
  change (ParentVertex.edges (ParentVertex.setVertex u m p))
    with (ParentVertex.edges p).
  rewrite setVertex_vertices.
  by destruct (m !!! i).
Qed.

End ParentLabelProperties.

(** ** DistanceLabel *)

Section DistanceLabelProperties.
Context {K : nat}.

(** The copy constructor reproduces all [K] values, whatever the new
    object's storage held. *)
Lemma DistanceLabel_copy_ctor (values0 other : DistanceLabel.t K) :
  DistanceLabel.copy_ctor values0 other = other.
Proof.
  apply vec_eq. intros j. unfold DistanceLabel.copy_ctor.
  apply (for_each_component_vinsert (fun i _ => other !!! i)).
Qed.

(** The loop of [min] when receiver and argument are the same object:
    no iteration changes memory. *)
Lemma min_loop_aliased (this : DistanceLabel.addr) (mem : DistanceLabel.memory K)
    (a : DistanceLabel.t K) (l : list (fin K)) :
  mem !! this = Some a →
  foldl (DistanceLabel.min_body this this) (Ok mem) l = Ok mem.
Proof.
  intros Ha. induction l as [|i l IH]; [done|].
  cbn [foldl]. unfold DistanceLabel.min_body at 2. cbn. rewrite Ha.
  rewrite Z.min_id, vlookup_insert_self, insert_id by done.
  exact IH.
Qed.

(** The loop of [min] on two distinct objects: the argument is read only,
    and the receiver goes through the loop on its own array. *)
Lemma min_loop_distinct (this other : DistanceLabel.addr) (b : DistanceLabel.t K)
    (l : list (fin K)) (mem : DistanceLabel.memory K) (a : DistanceLabel.t K) :
  this ≠ other →
  mem !! this = Some a →
  mem !! other = Some b →
  foldl (DistanceLabel.min_body this other) (Ok mem) l
  = Ok (<[this := foldl (fun acc i => vinsert i (Z.min (acc !!! i) (b !!! i)) acc) a l]> mem).
Proof.
  intros Hne. revert mem a. induction l as [|i l IH]; intros mem a Ha Hb.
  - cbn. by rewrite insert_id.
  - cbn [foldl]. unfold DistanceLabel.min_body at 2. cbn. rewrite Ha, Hb.
    rewrite (IH _ (vinsert i (Z.min (a !!! i) (b !!! i)) a)).
    + by rewrite insert_insert_eq.
    + by rewrite lookup_insert_eq.
    + by rewrite lookup_insert_ne.
Qed.

Lemma min_distinct (this other : DistanceLabel.addr) (mem : DistanceLabel.memory K)
    (a b : DistanceLabel.t K) :
  this ≠ other →
  mem !! this = Some a →
  mem !! other = Some b →
  DistanceLabel.min this other mem = Ok (<[this := vzip_with Z.min a b]> mem).
Proof.
  intros Hne Ha Hb. unfold DistanceLabel.min, for_each_component.
  rewrite (min_loop_distinct this other b _ mem a) by done.
  do 2 f_equal. apply vec_eq. intros j. rewrite vlookup_zip_with.
  apply (for_each_component_vinsert (fun i x => Z.min x (b !!! i))).
Qed.

(** C4: [a.min(b)] returns; afterwards every component of [a] is the
    smaller of the original components of [a] and [b], [b] holds what it
    held (also when [b] is [a] itself), no other object has changed, and
    a second [a.min(b)] changes nothing. *)
Theorem DistanceLabel_min_spec (this other : DistanceLabel.addr)
    (mem : DistanceLabel.memory K) (a b : DistanceLabel.t K) :
  mem !! this = Some a →
  mem !! other = Some b →
  ∃ mem' a',
    DistanceLabel.min this other mem = Ok mem'
    ∧ mem' !! this = Some a'
    ∧ (∀ i, a' !!! i = Z.min (a !!! i) (b !!! i))
    ∧ mem' !! other = Some b
    ∧ (∀ p, p ≠ this → mem' !! p = mem !! p)
    ∧ DistanceLabel.min this other mem' = Ok mem'.
Proof.
  intros Ha Hb. destruct (decide (this = other)) as [<-|Hne].
  - assert (a = b) as <- by congruence.
    exists mem, a. unfold DistanceLabel.min, for_each_component.
    rewrite (min_loop_aliased this mem a) by done.
    repeat split; try done. intros i. by rewrite Z.min_id.
  - exists (<[this := vzip_with Z.min a b]> mem), (vzip_with Z.min a b).
    split; [by apply min_distinct|].
    split; [by rewrite lookup_insert_eq|].
    split; [intros i; by rewrite vlookup_zip_with|].
    split; [by rewrite lookup_insert_ne|].
    split; [intros p Hp; by rewrite lookup_insert_ne|].
    rewrite (min_distinct this other _ (vzip_with Z.min a b) b); try done.
    + rewrite insert_insert_eq. do 2 f_equal. apply vec_eq. intros i.
      rewrite !vlookup_zip_with. lia.
    + by rewrite lookup_insert_eq.
    + by rewrite lookup_insert_ne.
Qed.

End DistanceLabelProperties.

Lemma DistanceLabel_min_spec_witness :
  let mem : DistanceLabel.memory 2 := <[1%positive := [# 3; 9]]> (<[2%positive := [# 5; 4]]> ∅) in
  ∃ mem' a',
    DistanceLabel.min 1%positive 2%positive mem = Ok mem'
    ∧ mem' !! 1%positive = Some a'
    ∧ (∀ i, a' !!! i = Z.min ([# 3; 9] !!! i) ([# 5; 4] !!! i))
    ∧ mem' !! 2%positive = Some [# 5; 4]
    ∧ (∀ p, p ≠ 1%positive → mem' !! p = mem !! p)
    ∧ DistanceLabel.min 1%positive 2%positive mem' = Ok mem'.
Proof.
  cbn zeta.
  apply (DistanceLabel_min_spec 1%positive 2%positive _ [# 3; 9] [# 5; 4]);
    reflexivity.
Defined.

(** ** StampedDistanceLabelContainer *)

Lemma vector_at_Ok {A} (l : list A) (v : Z) (a : A) :
  vector_at l v = Ok a ↔ 0 ≤ v ∧ l !! Z.to_nat v = Some a.
Proof.
  unfold vector_at. destruct (Z.ltb_spec v 0) as [Hneg|Hpos].
  - split; [done|intros [? _]; exfalso; lia].
  - destruct (l !! Z.to_nat v) as [a'|]; split; try done.
    + by intros [= ->].
    + by intros [_ [= ->]].
    + by intros [_ ?].
Qed.

Lemma vector_at_in_range {A} (l : list A) (v : Z) :
  0 ≤ v < Z.of_nat (length l) → ∃ a, vector_at l v = Ok a.
Proof.
  intros Hv. destruct (lookup_lt_is_Some_2 l (Z.to_nat v)) as [a Ha]; [lia|].
  exists a. apply vector_at_Ok. split; [lia|done].
Qed.

Section ContainerProperties.
Context {K : nat}.
Import StampedDistanceLabelContainer.

Implicit Types (c : StampedDistanceLabelContainer.t K) (v u : Z)
  (L : DistanceLabel.t K) (ops : list (@call K)).

(** *** What each call does *)

Lemma construct_Ok n labels0 stamps0 c :
  construct n labels0 stamps0 = Ok c →
  0 ≤ n
  ∧ distanceLabels c = labels0 <$> seq 0 (Z.to_nat n)
  ∧ timestamps c = replicate (Z.to_nat n) 0
  ∧ clock c = 0.
Proof.
  unfold construct. destruct (Z.ltb_spec n 0) as [?|Hn]; [done|].
  intros [= <-]. cbn. unfold std_fill.
  by rewrite length_fmap, length_seq.
Qed.

Lemma init_no_overflow c :
  0 ≤ clock c < INT_MAX →
  init c = Ok (Build (distanceLabels c) (timestamps c) (clock c + 1)).
Proof.
  intros Hc. unfold init.
  destruct (Z.leb_spec INT_MAX (clock c)); [lia|].
  destruct (Z.ltb_spec (clock c + 1) 0); [lia|done].
Qed.

Lemma init_at_INT_MAX c : INT_MAX ≤ clock c → init c = Fault signed_overflow.
Proof.
  intros Hc. unfold init. destruct (Z.leb_spec INT_MAX (clock c)); [done|lia].
Qed.

Lemma init_Ok c c' :
  0 ≤ clock c →
  init c = Ok c' →
  clock c < INT_MAX
  ∧ c' = Build (distanceLabels c) (timestamps c) (clock c + 1).
Proof.
  intros Hc. unfold init.
  destruct (Z.leb_spec INT_MAX (clock c)); [done|].
  destruct (Z.ltb_spec (clock c + 1) 0); [lia|].
  by intros [= <-].
Qed.

Lemma index_Ok c v c' :
  index c v = Ok c' →
  0 ≤ v < Z.of_nat (length (distanceLabels c))
  ∧ ∃ ts, timestamps c !! Z.to_nat v = Some ts
    ∧ ((ts = clock c ∧ c' = c)
       ∨ (ts < clock c
          ∧ c' = Build (<[Z.to_nat v := INFTY_label]> (distanceLabels c))
                       (<[Z.to_nat v := clock c]> (timestamps c))
                       (clock c))).
Proof.
  unfold index.
  destruct (Z.ltb_spec v 0) as [?|Hv0]; [done|].
  destruct (Z.leb_spec (Z.of_nat (length (distanceLabels c))) v) as [?|Hvn]; [done|].
  destruct (vector_at (timestamps c) v) as [ts|] eqn:Ets; [|done].
  apply vector_at_Ok in Ets as [_ Ets]. cbn.
  destruct (Z.eqb_spec ts (clock c)) as [->|Hne].
  - intros [= <-]. split; [lia|]. exists (clock c). split; [done|by left].
  - destruct (Z.ltb_spec ts (clock c)) as [Hlt|?]; [|done]. cbn.
    destruct (vector_at (distanceLabels c) v) as [L|] eqn:EL; [|done]. cbn.
    intros [= <-]. split; [lia|]. exists ts. split; [done|by right].
Qed.

Lemma store_Ok c v L c' :
  store c v L = Ok c' →
  0 ≤ v < Z.of_nat (length (distanceLabels c))
  ∧ c' = Build (<[Z.to_nat v := L]> (distanceLabels c)) (timestamps c) (clock c).
Proof.
  unfold store.
  destruct (vector_at (distanceLabels c) v) as [L0|] eqn:EL; [|done].
  apply vector_at_Ok in EL as [Hv EL]. apply lookup_lt_Some in EL.
  cbn. intros [= <-]. split; [lia|done].
Qed.

Lemma get_stale c v : stale c v → get c v = Ok INFTY_label.
Proof.
  intros [Hv (ts & Hts & Hlt)]. unfold get.
  rewrite (proj2 (vector_at_Ok _ _ ts)) by done. cbn.
  destruct (Z.eqb_spec ts (clock c)); [lia|done].
Qed.

Lemma get_holds c v L : holds c v L → get c v = Ok L.
Proof.
  intros (Hv & Hts & HL). unfold get.
  rewrite (proj2 (vector_at_Ok _ _ (clock c))) by done. cbn.
  rewrite Z.eqb_refl. by apply vector_at_Ok.
Qed.

Lemma run_app ops1 ops2 c :
  run (ops1 ++ ops2) c = (c' ← run ops1 c; run ops2 c').
Proof.
  revert c. induction ops1 as [|op ops1 IH]; intros c; [done|].
  cbn [app run]. destruct (step c op) as [c1|f]; [apply IH|done].
Qed.

(** *** Invariants *)

Lemma construct_well_formed n labels0 stamps0 c :
  construct n labels0 stamps0 = Ok c → well_formed c.
Proof.
  intros (Hn & HL & Hts & Hc)%construct_Ok.
  unfold well_formed, clock_ahead, stamps_behind. rewrite HL, Hts, Hc.
  split; [by rewrite length_replicate, length_fmap, length_seq|].
  split; [unfold INT_MAX; lia|].
  apply Forall_replicate. lia.
Qed.

Lemma init_clock_ahead c c' : clock_ahead c → init c = Ok c' → clock_ahead c'.
Proof.
  intros [Hc Hts] [Hlt ->]%init_Ok; [|lia]. split; cbn; [lia|].
  eapply Forall_impl; [exact Hts|]. cbn. lia.
Qed.

Lemma init_lengths c c' :
  init c = Ok c' →
  length (timestamps c') = length (timestamps c)
  ∧ distanceLabels c' = distanceLabels c.
Proof.
  unfold init, std_fill. destruct (INT_MAX <=? clock c); [done|].
  destruct (clock c + 1 <? 0); intros [= <-]; cbn; [|done].
  by rewrite length_replicate.
Qed.

Lemma step_clock_ahead c op c' :
  clock_ahead c → step c op = Ok c' → clock_ahead c'.
Proof.
  intros Hc. destruct op as [|v|v L|v]; cbn.
  - by apply init_clock_ahead.
  - intros (_ & ts & Hts & [[_ ->]|[Hlt ->]])%index_Ok; [done|].
    destruct Hc as [Hc Hall]. split; [done|]. unfold stamps_behind. cbn.
    apply Forall_insert; [done|lia].
  - by intros [_ ->]%store_Ok.
  - destruct (get c v); [|done]. by intros [= <-].
Qed.

Lemma step_lengths c op c' :
  step c op = Ok c' →
  length (timestamps c') = length (timestamps c)
  ∧ length (distanceLabels c') = length (distanceLabels c).
Proof.
  destruct op as [|v|v L|v]; cbn.
  - intros [-> ->]%init_lengths. done.
  - intros (_ & ts & Hts & [[_ ->]|[Hlt ->]])%index_Ok; [done|].
    cbn. by rewrite !length_insert.
  - intros [_ ->]%store_Ok. cbn. by rewrite length_insert.
  - destruct (get c v); [|done]. by intros [= <-].
Qed.

Lemma step_well_formed c op c' :
  well_formed c → step c op = Ok c' → well_formed c'.
Proof.
  intros [Hlen Hc] Hstep. split; [|by eapply step_clock_ahead].
  destruct (step_lengths _ _ _ Hstep) as [-> ->]. done.
Qed.

Lemma run_well_formed ops c c' :
  well_formed c → run ops c = Ok c' → well_formed c'.
Proof.
  revert c. induction ops as [|op ops IH]; intros c Hc; cbn [run].
  - by intros [= <-].
  - destruct (step c op) as [c1|] eqn:E; [|done]. cbn.
    apply IH. by eapply step_well_formed.
Qed.

Lemma run_lengths ops c c' :
  run ops c = Ok c' →
  length (timestamps c') = length (timestamps c)
  ∧ length (distanceLabels c') = length (distanceLabels c).
Proof.
  revert c. induction ops as [|op ops IH]; intros c; cbn [run].
  - by intros [= <-].
  - destruct (step c op) as [c1|] eqn:E; [|done]. cbn.
    intros [-> ->]%IH. by eapply step_lengths.
Qed.

(** Whoever went through construction and calls is reachable, and
    reachable containers are well formed. *)
Lemma run_reachable ops c c' : reachable c → run ops c = Ok c' → reachable c'.
Proof.
  revert c. induction ops as [|op ops IH]; intros c Hc; cbn [run].
  - by intros [= <-].
  - destruct (step c op) as [c1|] eqn:E; [|done]. cbn.
    apply IH. by eapply reachable_step.
Qed.

Lemma reachable_well_formed c : reachable c → well_formed c.
Proof.
  induction 1 as [n labels0 stamps0 c Hc|c op c' _ IH Hstep].
  - by eapply construct_well_formed.
  - by eapply step_well_formed.
Qed.

(** *** Stale slots read as INFTY *)

Lemma init_stale c c' v :
  clock_ahead c → 0 ≤ v < Z.of_nat (length (timestamps c)) →
  init c = Ok c' → stale c' v.
Proof.
  intros [Hc Hall] Hv [Hlt ->]%init_Ok; [|lia]. split; [lia|].
  destruct (lookup_lt_is_Some_2 (timestamps c) (Z.to_nat v)) as [ts Hts]; [lia|].
  cbn. exists ts. split; [done|].
  unfold stamps_behind in Hall. rewrite Forall_lookup in Hall.
  specialize (Hall _ _ Hts). cbn in Hall. lia.
Qed.

Lemma step_stale c op c' v :
  clock_ahead c → stale c v → op ≠ MutIndex v → step c op = Ok c' → stale c' v.
Proof.
  intros Hc [Hv (ts & Hts & Hlt)] Hop.
  destruct op as [|u|u L|u]; cbn.
  - apply init_stale; [done|].
    apply lookup_lt_Some in Hts. lia.
  - intros (Hu & tsu & Htsu & [[_ ->]|[Hltu ->]])%index_Ok.
    + split; [done|by exists ts].
    + split; [done|]. exists ts. split; [|done]. cbn.
      rewrite list_lookup_insert_ne; [done|].
      intros Heq. apply Hop. f_equal. lia.
  - intros [_ ->]%store_Ok. split; [done|by exists ts].
  - destruct (get c u); [|done]. intros [= <-]. split; [done|by exists ts].
Qed.

Lemma run_stale ops c c' v :
  clock_ahead c → stale c v → untouched v ops → run ops c = Ok c' → stale c' v.
Proof.
  revert c. induction ops as [|op ops IH]; intros c Hc Hst Hops; cbn [run].
  - by intros [= <-].
  - apply Forall_cons in Hops as [Hop Hops].
    destruct (step c op) as [c1|] eqn:E; [|done]. cbn.
    apply IH; [by eapply step_clock_ahead|by eapply step_stale|done].
Qed.

(** *** Stamped slots keep their label within a generation *)

Lemma step_holds c op c' v L :
  holds c v L →
  match op with Init => False | Store u _ => u ≠ v | _ => True end →
  step c op = Ok c' → holds c' v L.
Proof.
  intros (Hv & Hts & HL) Hop.
  destruct op as [|u|u L'|u]; cbn; [done| | |].
  - intros (Hu & tsu & Htsu & [[_ ->]|[Hltu ->]])%index_Ok; [done|].
    assert (Z.to_nat u ≠ Z.to_nat v) as Hne.
    { intros Heq. rewrite Heq in Htsu. simplify_eq. lia. }
    split; [done|]. cbn. by rewrite !list_lookup_insert_ne.
  - intros [Hu ->]%store_Ok. split; [done|]. cbn.
    rewrite list_lookup_insert_ne; [done|]. lia.
  - destruct (get c u); [|done]. by intros [= <-].
Qed.

Lemma run_holds ops c c' v L :
  holds c v L → same_generation v ops → run ops c = Ok c' → holds c' v L.
Proof.
  revert c. induction ops as [|op ops IH]; intros c Hc Hops; cbn [run].
  - by intros [= <-].
  - apply Forall_cons in Hops as [Hop Hops].
    destruct (step c op) as [c1|] eqn:E; [|done]. cbn.
    apply IH; [by eapply step_holds|done].
Qed.

(** *** The mutable index never fails on a vertex of the graph *)

Lemma index_total c v :
  well_formed c → 0 ≤ v < Z.of_nat (length (distanceLabels c)) →
  ∃ c', index c v = Ok c'.
Proof.
  intros (Hlen & Hc & Hall) Hv. unfold index.
  destruct (Z.ltb_spec v 0) as [?|_]; [lia|].
  destruct (Z.leb_spec (Z.of_nat (length (distanceLabels c))) v) as [?|_]; [lia|].
  destruct (vector_at_in_range (timestamps c) v) as [ts Hts]; [lia|].
  rewrite Hts. cbn. apply vector_at_Ok in Hts as [_ Hts].
  unfold stamps_behind in Hall. rewrite Forall_lookup in Hall.
  specialize (Hall _ _ Hts). cbn in Hall.
  destruct (Z.eqb_spec ts (clock c)); [by eexists|].
  destruct (Z.ltb_spec ts (clock c)); [|lia]. cbn.
  destruct (vector_at_in_range (distanceLabels c) v) as [L HL]; [lia|].
  rewrite HL. cbn. by eexists.
Qed.

Lemma index_stamp_assert_holds c v :
  stamps_behind c → index c v ≠ Fault assert_stamp_behind.
Proof.
  intros Hall. unfold index.
  destruct (v <? 0); [done|].
  destruct (Z.of_nat (length (distanceLabels c)) <=? v); [done|].
  destruct (vector_at (timestamps c) v) as [ts|f] eqn:Ets; cbn.
  - apply vector_at_Ok in Ets as [_ Ets].
    unfold stamps_behind in Hall. rewrite Forall_lookup in Hall.
    specialize (Hall _ _ Ets). cbn in Hall.
    destruct (Z.eqb_spec ts (clock c)); [done|].
    destruct (Z.ltb_spec ts (clock c)); [|lia]. cbn.
    unfold vector_at. destruct (v <? 0); [done|].
    by destruct (distanceLabels c !! Z.to_nat v).
  - unfold vector_at in Ets. destruct (v <? 0); [by simplify_eq|].
    destruct (timestamps c !! Z.to_nat v); by simplify_eq.
Qed.

(** *** The claims about the container *)

(** C1: take a container of any size [n], for any [K], through any calls
    [ops1] after its construction, then through [init], then through any
    calls [ops2] that make no mutable index access to vertex [v] (further
    resets, reads, accesses to other vertices, writes through references
    obtained earlier): [get(v)] returns INFTY.  With [ops1] empty this is
    the first reset of a fresh container; with [ops1] writing to [v] it is
    a later reset, the slot of [v] still holding what was written. *)
Theorem get_after_init_is_INFTY (n : Z) labels0 stamps0 c0 ops1 ops2 c' v :
  construct n labels0 stamps0 = Ok c0 →
  run (ops1 ++ Init :: ops2) c0 = Ok c' →
  0 ≤ v < n →
  untouched v ops2 →
  get c' v = Ok INFTY_label.
Proof.
  intros Hc0 Hrun Hv Hops. rewrite run_app in Hrun.
  destruct (run ops1 c0) as [c1|] eqn:E1; [|done]. cbn in Hrun.
  destruct (init c1) as [c2|] eqn:E2; [|done]. cbn in Hrun.
  pose proof (construct_well_formed _ _ _ _ Hc0) as Hwf0.
  destruct (run_well_formed _ _ _ Hwf0 E1) as [Hlen1 Hc1].
  apply get_stale. apply (run_stale ops2 c2); try done.
  - by eapply init_clock_ahead.
  - eapply init_stale; [done| |done].
    destruct (run_lengths _ _ _ E1) as [-> _].
    apply construct_Ok in Hc0 as (Hn & _ & -> & _).
    rewrite length_replicate. lia.
Qed.

(** C2: the call that the claim is about has no defined result.  When
    the clock holds the largest [int], the [++clock] of [init] is a signed
    overflow, so the test [clock < 0] that guards the full clear is made
    on an undefined value: the clear of the timestamps and the clock 1
    that the claim promises are not what the code can be relied on to
    do. *)
Theorem init_overflow_is_undefined (c : StampedDistanceLabelContainer.t K) :
  clock c = INT_MAX →
  init c = Fault signed_overflow
  ∧ ∀ ops, run (Init :: ops) c = Fault signed_overflow.
Proof.
  intros Hmax.
  assert (init c = Fault signed_overflow) as Hinit by (apply init_at_INT_MAX; lia).
  split; [done|]. intros ops. cbn [run step]. by rewrite Hinit.
Qed.

(** C3: on a container that went through any calls since construction,
    the mutable index access to a vertex [v] of the graph returns, the
    store of [L] through it returns, and from then on [get(v)] returns
    [L], also after any further calls of the same generation (no reset)
    that do not store to the slot of [v]. *)
Theorem get_after_store (n : Z) labels0 stamps0 c0 ops1 c v L :
  construct n labels0 stamps0 = Ok c0 →
  run ops1 c0 = Ok c →
  0 ≤ v < n →
  ∃ c1 c2,
    index c v = Ok c1
    ∧ store c1 v L = Ok c2
    ∧ get c2 v = Ok L
    ∧ ∀ ops c', same_generation v ops → run ops c2 = Ok c' → get c' v = Ok L.
Proof.
  intros Hc0 Hrun Hv.
  pose proof (construct_well_formed _ _ _ _ Hc0) as Hwf0.
  pose proof (run_well_formed _ _ _ Hwf0 Hrun) as Hwf.
  assert (Z.of_nat (length (distanceLabels c)) = n) as Hlen.
  { destruct (run_lengths _ _ _ Hrun) as [_ ->].
    apply construct_Ok in Hc0 as (Hn & -> & _ & _).
    rewrite length_fmap, length_seq. lia. }
  destruct (index_total c v Hwf) as [c1 Hc1]; [lia|].
  exists c1.
  assert (timestamps c1 !! Z.to_nat v = Some (clock c1)
          ∧ length (distanceLabels c1) = length (distanceLabels c)) as [Hts1 Hlen1].
  { apply index_Ok in Hc1 as (_ & ts & Hts & [[-> ->]|[_ ->]]); [done|].
    cbn. rewrite length_insert. split; [|done].
    apply list_lookup_insert_eq. by eapply lookup_lt_Some. }
  destruct (vector_at_in_range (distanceLabels c1) v) as [L0 HL0]; [lia|].
  eexists. unfold store at 1. rewrite HL0. cbn. split; [done|]. split; [done|].
  match goal with |- get ?c2 v = _ ∧ _ => assert (holds c2 v L) as Hholds end.
  { split; [lia|]. cbn. split; [done|].
    apply list_lookup_insert_eq. lia. }
  split; [by apply get_holds|].
  intros ops c' Hops Hrun'. apply get_holds. by eapply run_holds.
Qed.

(** In every run that returns, no timestamp is ahead of the clock, the
    mutable index access does not fail its assertion
    [timestamps[v] < clock], and on a vertex of the graph it returns. *)
Lemma timestamps_never_ahead (n : Z) labels0 stamps0 c0 ops c :
  construct n labels0 stamps0 = Ok c0 →
  run ops c0 = Ok c →
  Forall (fun ts => ts ≤ clock c) (timestamps c)
  ∧ (∀ v, index c v ≠ Fault assert_stamp_behind)
  ∧ (∀ v, 0 ≤ v < n → ∃ c', index c v = Ok c').
Proof.
  intros Hc0 Hrun.
  pose proof (construct_well_formed _ _ _ _ Hc0) as Hwf0.
  pose proof (run_well_formed _ _ _ Hwf0 Hrun) as Hwf.
  split; [apply Hwf|]. split.
  - intros v. apply index_stamp_assert_holds, Hwf.
  - intros v Hv. apply index_total; [done|].
    destruct (run_lengths _ _ _ Hrun) as [_ ->].
    apply construct_Ok in Hc0 as (Hn & -> & _ & _).
    rewrite length_fmap, length_seq. lia.
Qed.

Lemma step_clock c op c' :
  0 ≤ clock c →
  step c op = Ok c' →
  clock c' = clock c + Z.of_nat (resets [op]).
Proof.
  intros Hc. destruct op as [|u|u L|u]; cbn.
  - intros [_ ->]%init_Ok; [|done]. cbn. lia.
  - intros (_ & ts & _ & [[_ ->]|[_ ->]])%index_Ok; cbn; lia.
  - intros [_ ->]%store_Ok. cbn. lia.
  - destruct (get c u); [|done]. intros [= <-]. lia.
Qed.

Lemma resets_cons op ops :
  resets (op :: ops) = (resets [op] + resets ops)%nat.
Proof. by destruct op. Qed.

Lemma resets_app ops1 ops2 :
  resets (ops1 ++ ops2) = (resets ops1 + resets ops2)%nat.
Proof.
  induction ops1 as [|op ops1 IH]; [done|].
  cbn [app]. rewrite (resets_cons op (ops1 ++ ops2)), (resets_cons op ops1), IH. lia.
Qed.

Lemma resets_replicate (k : nat) : resets (replicate k (@Init K)) = k.
Proof. induction k as [|k IH]; [done|]. cbn [replicate resets]. by rewrite IH. Qed.

(** A run that would take the clock beyond the largest [int] does not
    return. *)
Lemma run_beyond_INT_MAX ops c :
  clock_ahead c →
  INT_MAX < clock c + Z.of_nat (resets ops) →
  ∃ f, run ops c = Fault f.
Proof.
  revert c. induction ops as [|op ops IH]; intros c Hc Hgt.
  - destruct Hc as [Hc _]. cbn in Hgt. lia.
  - cbn [run]. destruct (step c op) as [c1|f] eqn:E; [|by exists f].
    cbn. apply IH; [by eapply step_clock_ahead|].
    rewrite (step_clock _ _ _ (proj1 (proj1 Hc)) E).
    rewrite resets_cons in Hgt. lia.
Qed.

(** C9: the invariant is not kept across every sequence of calls.  A
    sequence with more than [INT_MAX] resets takes [++clock] beyond the
    largest [int]; from that reset on the run has no defined result, so
    neither the relation between timestamps and clock nor the assertion
    [timestamps[v] < clock] of a later mutable index access is
    guaranteed. *)
Theorem resets_beyond_INT_MAX_undefined (n : Z) labels0 stamps0 c0 ops :
  construct n labels0 stamps0 = Ok c0 →
  INT_MAX < Z.of_nat (resets ops) →
  ∃ f, run ops c0 = Fault f.
Proof.
  intros Hc0 Hgt. apply run_beyond_INT_MAX.
  - by apply (construct_well_formed _ _ _ _ Hc0).
  - apply construct_Ok in Hc0 as (_ & _ & _ & ->). lia.
Qed.

(** C10: right after construction the clock is 0 and so is every
    timestamp, so [get(v)] on a vertex of the graph takes the branch of
    matching timestamps and returns the label the slot holds, which no
    one has written; it returns INFTY only if that is what the slot
    happens to hold. *)
Theorem get_before_first_init (n : Z) labels0 stamps0 c v :
  construct n labels0 stamps0 = Ok c →
  0 ≤ v < n →
  clock c = 0
  ∧ Forall (fun ts => ts = clock c) (timestamps c)
  ∧ get c v = Ok (labels0 (Z.to_nat v))
  ∧ (get c v = Ok INFTY_label ↔ labels0 (Z.to_nat v) = INFTY_label).
Proof.
  intros (Hn & HL & Hts & Hc)%construct_Ok Hv.
  assert (get c v = Ok (labels0 (Z.to_nat v))) as Hget.
  { apply get_holds. split; [lia|]. rewrite HL, Hts, Hc. split.
    - apply lookup_replicate_2. lia.
    - rewrite list_lookup_fmap, lookup_seq_lt by lia. done. }
  split; [done|]. split; [|split; [done|]].
  - rewrite Hts, Hc. by apply Forall_replicate.
  - rewrite Hget. split; [by intros [= ->]|by intros ->].
Qed.

End ContainerProperties.

(** *** The claims at concrete containers *)

Section ContainerExamples.
Import StampedDistanceLabelContainer.

Lemma get_after_init_is_INFTY_witness :
  run ([Init; MutIndex 0; Store 0 [# 7; 7]] ++ Init :: [Get 1; MutIndex 1])
      (Build [[# 0; 0]; [# 0; 0]; [# 0; 0]] [0; 0; 0] 0)
  = Ok (Build [[# 7; 7]; [# INFTY; INFTY]; [# 0; 0]] [1; 2; 0] 2)
  ∧ get (Build [[# 7; 7]; [# INFTY; INFTY]; [# 0; 0]] [1; 2; 0] 2) 0
    = Ok (@INFTY_label 2).
Proof.
  split; [reflexivity|].
  apply (get_after_init_is_INFTY 3 (fun _ => [# 0; 0]) (fun _ => 0)
           (Build [[# 0; 0]; [# 0; 0]; [# 0; 0]] [0; 0; 0] 0)
           [Init; MutIndex 0; Store 0 [# 7; 7]] [Get 1; MutIndex 1] _ 0).
  - reflexivity.
  - reflexivity.
  - lia.
  - repeat constructor; discriminate.
Defined.

Lemma init_overflow_is_undefined_witness :
  let c := Build [[# 7; 7]; [# 3; 4]] [INT_MAX; 12] INT_MAX in
  init c = Fault signed_overflow
  ∧ ∀ ops, run (Init :: ops) c = Fault signed_overflow.
Proof.
  cbn zeta.
  apply (init_overflow_is_undefined (Build [[# 7; 7]; [# 3; 4]] [INT_MAX; 12] INT_MAX)).
  reflexivity.
Defined.

Lemma get_after_store_witness :
  ∃ c1 c2,
    index (Build [[# 0; 0]; [# 0; 0]; [# 0; 0]] [0; 0; 0] 1) 0 = Ok c1
    ∧ store c1 0 [# 7; 7] = Ok c2
    ∧ get c2 0 = Ok [# 7; 7]
    ∧ ∀ ops c', same_generation 0 ops → run ops c2 = Ok c' → get c' 0 = Ok [# 7; 7].
Proof.
  apply (get_after_store 3 (fun _ => [# 0; 0]) (fun _ => 0)
           (Build [[# 0; 0]; [# 0; 0]; [# 0; 0]] [0; 0; 0] 0) [Init]).
  - reflexivity.
  - reflexivity.
  - lia.
Defined.

Lemma resets_beyond_INT_MAX_undefined_witness :
  ∃ f, run (replicate (Z.to_nat 2147483648) Init ++ [MutIndex 0])
           (Build [[# 0; 0]] [0] 0)
       = Fault f.
Proof.
  apply (resets_beyond_INT_MAX_undefined 1 (fun _ => [# 0; 0]) (fun _ => 0)).
  - reflexivity.
  - rewrite resets_app, resets_replicate. unfold INT_MAX. lia.
Defined.

Lemma get_before_first_init_witness :
  let c := Build [[# 0; 0]; [# 0; 0]; [# 0; 0]] [0; 0; 0] 0 in
  clock c = 0
  ∧ Forall (fun ts => ts = clock c) (timestamps c)
  ∧ get c 1 = Ok [# 0; 0]
  ∧ (get c 1 = Ok (@INFTY_label 2) ↔ [# 0; 0] = @INFTY_label 2).
Proof.
  cbn zeta.
  apply (get_before_first_init 3 (fun _ => [# 0; 0]) (fun _ => 0)
           (Build [[# 0; 0]; [# 0; 0]; [# 0; 0]] [0; 0; 0] 0) 1).
  - reflexivity.
  - lia.
Defined.

(** The concrete scenario of the container: K = 2, three vertices;
    reset, write 7 to vertex 0, read vertices 0 and 1, reset, read
    vertex 0. *)
Example container_scenario :
  ∃ c0 c1 c2 c3,
    construct 3 (fun _ => [# 0; 0]) (fun _ => 0) = Ok c0
    ∧ (c ← init c0; index c 0) = Ok c1
    ∧ store c1 0 (DistanceLabel.of_int [# 0; 0] 7) = Ok c2
    ∧ get c2 0 = Ok [# 7; 7]
    ∧ get c2 1 = Ok [# INFTY; INFTY]
    ∧ init c2 = Ok c3
    ∧ get c3 0 = Ok [# INFTY; INFTY]
    ∧ distanceLabels c3 !! 0%nat = Some [# 7; 7].
Proof. do 4 eexists. repeat split. Qed.

End ContainerExamples.

(** ** SystemOptimum *)

Section SystemOptimumProperties.
Import SystemOptimum.

Lemma linear_lanewise (a b : float) : lanewise (linear a b).
Proof.
  intros e x i. cbn [linear cost derivative cost8 derivative8]. split.
  - by rewrite vlookup_map.
  - by rewrite vlookup_replicate.
Qed.

(** C5: the weight of edge [e] at flow [x] is cost(e, x) +
    x * derivative(e, x) of the wrapped functor, in [float] arithmetic;
    for the functor with cost(e, x) = 2x + 5 and derivative 2, the weight
    at flow 3 is 17. *)
Theorem getEdgeWeight_marginal_cost (f : TravelCostFunction) (e : Z) (x : float) :
  getEdgeWeight f e x = fadd (cost f e x) (fmul x (derivative f e x))
  ∧ getEdgeWeight (linear (float_of_Z 2) (float_of_Z 5)) e (float_of_Z 3)
    = float_of_Z 17.
Proof.
  split.
  - reflexivity.
  - unfold getEdgeWeight. cbn [linear cost derivative].
    vm_compute. reflexivity.
Qed.

(** C6: if the vector overloads of the wrapped functor agree lane by lane
    with its scalar overloads, every lane [i] of [getEdgeWeights(e, x)]
    is the very [float] that [getEdgeWeight] returns for edge [e + i] on
    lane [i] of [x]. *)
Theorem getEdgeWeights_lanewise (f : TravelCostFunction) (e : Z) (x : Vec8f)
    (i : fin 8) :
  lanewise f →
  getEdgeWeights f e x !!! i
  = getEdgeWeight f (e + Z.of_nat (fin_to_nat i)) (x !!! i).
Proof.
  intros Hf. destruct (Hf e x i) as [Hcost Hder].
  unfold getEdgeWeights, getEdgeWeight, Vec8f_add, Vec8f_mul.
  by rewrite !vlookup_zip_with, Hcost, Hder.
Qed.

Lemma getEdgeWeights_lanewise_witness :
  let f := linear (float_of_Z 2) (float_of_Z 5) in
  let x : Vec8f := vmap float_of_Z [# 1; 2; 3; 4; 5; 6; 7; 8] in
  lanewise f
  ∧ getEdgeWeights f 40 x !!! 2%fin = getEdgeWeight f 42 (float_of_Z 3).
Proof.
  cbn zeta. split; [apply linear_lanewise|].
  apply (getEdgeWeights_lanewise (linear (float_of_Z 2) (float_of_Z 5)) 40
           (vmap float_of_Z [# 1; 2; 3; 4; 5; 6; 7; 8]) 2%fin).
  apply linear_lanewise.
Defined.

(** On the linear functor the eight lanes are the eight scalar weights;
    the third one is the 17 of the concrete scenario. *)
Example getEdgeWeights_linear :
  getEdgeWeights (linear (float_of_Z 2) (float_of_Z 5)) 40
    (vmap float_of_Z [# 1; 2; 3; 4; 5; 6; 7; 8])
  = vmap float_of_Z [# 9; 13; 17; 21; 25; 29; 33; 37].
Proof. vm_compute. reflexivity. Qed.

End SystemOptimumProperties.

(** * Further properties of the label types *)

Lemma fin_of_nat_lt (i n : nat) :
  (i < n)%nat → ∃ j : fin n, fin_of_nat i n = Some j ∧ fin_to_nat j = i.
Proof.
  intros Hi. destruct (fin_of_nat i n) as [j|] eqn:E.
  - exists j. split; [done|]. by apply fin_of_nat_Some.
  - apply fin_of_nat_None in E. lia.
Qed.

Lemma fin_of_nat_ge (i n : nat) : (n ≤ i)%nat → fin_of_nat i n = None.
Proof.
  intros Hi. destruct (fin_of_nat i n) as [j|] eqn:E; [|done].
  apply fin_of_nat_Some in E. pose proof (fin_to_nat_lt j). lia.
Qed.

Lemma wrap_int_id (z : Z) : INT_MIN ≤ z ≤ INT_MAX → wrap_int z = z.
Proof.
  unfold wrap_int, INT_MIN, INT_MAX. intros Hz.
  rewrite Z.mod_small by lia. lia.
Qed.

Section LabelMaskAccess.
Context {K : nat}.

(** A mask with at least one component converts to [bool], and to [true]
    exactly when some component is marked. *)
Theorem LabelMask_to_bool_any (m : LabelMask.t K) :
  (0 < K)%nat →
  ∃ b, LabelMask.to_bool m = Ok b ∧ (b = true ↔ ∃ i, m !!! i = true).
Proof.
  intros HK. destruct (LabelMask_to_bool_total m HK) as [b Hb].
  exists b. split; [done|]. rewrite <- LabelMask_to_bool_true, Hb.
  split; [by intros ->|by intros [= ->]].
Qed.

(** Writing component [i] of a mask through the mutable [operator[]] and
    reading it back through the constant one returns what was written,
    and every other component reads as before. *)
Theorem LabelMask_write_read (m : LabelMask.t K) (i : Z) (b : bool) :
  0 ≤ i < Z.of_nat K →
  ∃ m', LabelMask.set_at m i b = Ok m'
        ∧ LabelMask.at_ m' i = Ok b
        ∧ ∀ j, j ≠ i → LabelMask.at_ m' j = LabelMask.at_ m j.
Proof.
  intros Hi. destruct (fin_of_nat_lt (Z.to_nat i) K) as (k & Hk & Hik); [lia|].
  exists (vinsert k b m). unfold LabelMask.set_at, LabelMask.at_, checked_at.
  destruct (Z.ltb_spec i 0) as [?|_]; [lia|]. rewrite Hk.
  split; [done|]. split; [by rewrite vlookup_insert|].
  intros j Hj. destruct (Z.ltb_spec j 0) as [?|Hj0]; [done|].
  destruct (fin_of_nat (Z.to_nat j) K) as [k'|] eqn:Hk'; [|done].
  rewrite vlookup_insert_ne; [done|].
  intros ->. apply fin_of_nat_Some in Hk'. lia.
Qed.

(** Outside [0 .. K-1] neither [operator[]] of a mask returns: the
    assertion on the index fails, the first one for a negative index and
    the second one for an index from [K] on. *)
Theorem LabelMask_index_asserted (m : LabelMask.t K) (i : Z) (b : bool) :
  ¬ (0 ≤ i < Z.of_nat K) →
  ∃ f, LabelMask.at_ m i = Fault f
       ∧ LabelMask.set_at m i b = Fault f
       ∧ f = (if i <? 0 then assert_nonneg else assert_in_range).
Proof.
  intros Hi. unfold LabelMask.at_, LabelMask.set_at, checked_at.
  destruct (Z.ltb_spec i 0) as [?|Hi0]; [by eexists|].
  rewrite fin_of_nat_ge by lia. by eexists.
Qed.

End LabelMaskAccess.

Lemma LabelMask_to_bool_any_witness :
  ∃ b, LabelMask.to_bool [# false; true; false] = Ok b
       ∧ (b = true ↔ ∃ i, [# false; true; false] !!! i = true).
Proof. apply (LabelMask_to_bool_any [# false; true; false]). lia. Defined.

Lemma LabelMask_write_read_witness :
  ∃ m', LabelMask.set_at [# false; false; true] 1 true = Ok m'
        ∧ LabelMask.at_ m' 1 = Ok true
        ∧ ∀ j, j ≠ 1 → LabelMask.at_ m' j = LabelMask.at_ [# false; false; true] j.
Proof. apply (LabelMask_write_read [# false; false; true] 1 true). lia. Defined.

Lemma LabelMask_index_asserted_witness :
  ∃ f, LabelMask.at_ [# false; true] 2 = Fault f
       ∧ LabelMask.set_at [# false; true] 2 true = Fault f
       ∧ f = (if 2 <? 0 then assert_nonneg else assert_in_range).
Proof. apply (LabelMask_index_asserted [# false; true] 2 true). cbn. lia. Defined.

Section DistanceLabelArithmetic.
Context {K : nat}.

Lemma plus_lookup (sum0 a : DistanceLabel.t K) (rhs : Z) (i : fin K) :
  DistanceLabel.plus sum0 a rhs !!! i = wrap_int (a !!! i + rhs).
Proof.
  unfold DistanceLabel.plus.
  apply (for_each_component_vinsert (fun i _ => wrap_int (a !!! i + rhs))).
Qed.

Lemma less_lookup (mask0 : LabelMask.t K) (a b : DistanceLabel.t K) (i : fin K) :
  DistanceLabel.less mask0 a b !!! i = (a !!! i <? b !!! i).
Proof.
  unfold DistanceLabel.less.
  apply (for_each_component_vinsert (fun i _ => a !!! i <? b !!! i)).
Qed.

Lemma foldl_Zmin_spec (v0 : Z) (rest : list Z) :
  (foldl Z.min v0 rest = v0 ∨ foldl Z.min v0 rest ∈ rest)
  ∧ foldl Z.min v0 rest ≤ v0
  ∧ ∀ x, x ∈ rest → foldl Z.min v0 rest ≤ x.
Proof.
  revert v0. induction rest as [|y rest IH]; intros v0; cbn [foldl].
  - split; [by left|]. split; [lia|]. by intros x ?%elem_of_nil.
  - destruct (IH (Z.min v0 y)) as (Hin & Hle & Hall). split; [|split].
    + destruct Hin as [->|Hin]; [|right; by right].
      destruct (Z.min_spec v0 y) as [[_ ->]|[_ ->]]; [by left|right; by left].
    + lia.
    + intros x [->|Hx]%elem_of_cons; [lia|by apply Hall].
Qed.

(** The key is determined by being a lower bound that some component
    attains. *)
Lemma getKey_unique (a : DistanceLabel.t K) (k : Z) :
  (∀ i, k ≤ a !!! i) → (∃ i, a !!! i = k) → DistanceLabel.getKey a = Ok k.
Proof.
  intros Hlow [i Hi]. unfold DistanceLabel.getKey.
  destruct (vec_to_list a) as [|v0 rest] eqn:E.
  { apply vlookup_lookup in Hi. by rewrite E in Hi. }
  destruct (foldl_Zmin_spec v0 rest) as (Hin & Hle & Hall).
  f_equal. apply Z.le_antisymm.
  - assert (k ∈ v0 :: rest) as [->|Hk]%elem_of_cons; [|done|by apply Hall].
    rewrite <- E. apply elem_of_vlookup. by exists i.
  - assert (foldl Z.min v0 rest ∈ vec_to_list a) as [j <-]%elem_of_vlookup; [|done].
    rewrite E. destruct Hin as [->|Hin]; [left|by right].
Qed.

Lemma getKey_attained_bound (a : DistanceLabel.t K) :
  (0 < K)%nat →
  ∃ k, DistanceLabel.getKey a = Ok k
       ∧ (∀ i, k ≤ a !!! i)
       ∧ ∃ i, a !!! i = k.
Proof.
  intros HK. unfold DistanceLabel.getKey.
  destruct (vec_to_list a) as [|v0 rest] eqn:E.
  { apply (f_equal length) in E. rewrite length_vec_to_list in E. cbn in E. lia. }
  destruct (foldl_Zmin_spec v0 rest) as (Hin & Hle & Hall).
  eexists. split; [done|]. split.
  - intros i.
    assert (a !!! i ∈ v0 :: rest) as [->|Hi]%elem_of_cons; [|done|by apply Hall].
    rewrite <- E. apply elem_of_vlookup. by exists i.
  - apply elem_of_vlookup. rewrite E.
    destruct Hin as [->|Hin]; [left|by right].
Qed.

(** With at least one component, [getKey] returns the smallest of the
    [K] values: a value of the label that no value is below. *)
Theorem getKey_is_minimum (a : DistanceLabel.t K) :
  (0 < K)%nat →
  ∃ k, DistanceLabel.getKey a = Ok k
       ∧ (∀ i, k ≤ a !!! i)
       ∧ ∃ i, a !!! i = k.
Proof. apply getKey_attained_bound. Qed.

(** [a < b] marks component [i] exactly when [a[i] < b[i]], whatever the
    fresh mask's storage held, and it converts to [true] exactly when
    some component of [a] is smaller than the one of [b]. *)
Theorem less_marks_smaller (mask0 : LabelMask.t K) (a b : DistanceLabel.t K) :
  (∀ i, DistanceLabel.less mask0 a b !!! i = true ↔ a !!! i < b !!! i)
  ∧ (LabelMask.to_bool (DistanceLabel.less mask0 a b) = Ok true
     ↔ ∃ i, a !!! i < b !!! i).
Proof.
  assert (∀ i, DistanceLabel.less mask0 a b !!! i = true ↔ a !!! i < b !!! i) as H.
  { intros i. rewrite less_lookup. apply Z.ltb_lt. }
  split; [done|]. rewrite LabelMask_to_bool_true.
  split; intros [i Hi]; exists i; by apply H.
Qed.

(** As long as no sum leaves the range of [int], [a + rhs] holds in every
    component the value of [a] plus [rhs], whatever the fresh label's
    storage held. *)
Theorem plus_componentwise (sum0 a : DistanceLabel.t K) (rhs : Z) :
  (∀ i, INT_MIN ≤ a !!! i + rhs ≤ INT_MAX) →
  ∀ i, DistanceLabel.plus sum0 a rhs !!! i = a !!! i + rhs.
Proof. intros Hrange i. rewrite plus_lookup. by apply wrap_int_id. Qed.

(** INFTY leaves headroom: a label whose values lie between 0 and INFTY,
    plus a weight between 0 and INFTY, is computed without overflow, and
    no component gets smaller. *)
Theorem plus_INFTY_headroom (sum0 a : DistanceLabel.t K) (rhs : Z) :
  (∀ i, 0 ≤ a !!! i ≤ INFTY) →
  0 ≤ rhs ≤ INFTY →
  ∀ i, DistanceLabel.plus sum0 a rhs !!! i = a !!! i + rhs
       ∧ a !!! i ≤ DistanceLabel.plus sum0 a rhs !!! i ≤ INT_MAX.
Proof.
  intros Ha Hrhs i. specialize (Ha i).
  assert (INFTY = 1073741823) as HI by reflexivity.
  rewrite plus_lookup, wrap_int_id; unfold INT_MIN, INT_MAX; lia.
Qed.

(** Adding to a broadcast label is broadcasting the sum. *)
Theorem plus_broadcast (sum0 values0 values1 : DistanceLabel.t K) (c s : Z) :
  INT_MIN ≤ c + s ≤ INT_MAX →
  DistanceLabel.plus sum0 (DistanceLabel.of_int values0 c) s
  = DistanceLabel.of_int values1 (c + s).
Proof.
  intros Hcs. apply vec_eq. intros i. rewrite plus_lookup.
  unfold DistanceLabel.of_int, DistanceLabel.assign.
  rewrite !vlookup_replicate. by apply wrap_int_id.
Qed.

(** The key of [a + rhs] is the key of [a] plus [rhs], as long as no sum
    leaves the range of [int]. *)
Theorem getKey_plus (sum0 a : DistanceLabel.t K) (rhs k : Z) :
  (∀ i, INT_MIN ≤ a !!! i + rhs ≤ INT_MAX) →
  DistanceLabel.getKey a = Ok k →
  DistanceLabel.getKey (DistanceLabel.plus sum0 a rhs) = Ok (k + rhs).
Proof.
  intros Hrange Hk.
  assert (0 < K)%nat as HK.
  { destruct K; [|lia]. revert Hk. unfold DistanceLabel.getKey.
    by inv_vec a. }
  destruct (getKey_attained_bound a HK) as (k' & Hk' & Hlow & i & Hi).
  assert (k' = k) as -> by congruence.
  apply getKey_unique.
  - intros j. rewrite plus_lookup, wrap_int_id by done. specialize (Hlow j). lia.
  - exists i. rewrite plus_lookup, wrap_int_id by done. lia.
Qed.

End DistanceLabelArithmetic.

Lemma getKey_is_minimum_witness :
  ∃ k, DistanceLabel.getKey [# 5; 2; 9] = Ok k
       ∧ (∀ i, k ≤ [# 5; 2; 9] !!! i)
       ∧ ∃ i, [# 5; 2; 9] !!! i = k.
Proof. apply (getKey_is_minimum [# 5; 2; 9]). lia. Defined.

Lemma plus_componentwise_witness :
  DistanceLabel.plus [# 0; 0] [# 3; INFTY] 4 !!! 1%fin = [# 3; INFTY] !!! 1%fin + 4.
Proof.
  apply (plus_componentwise [# 0; 0] [# 3; INFTY] 4).
  intros i. inv_fin i; [|intros i; inv_fin i; [|intros i; inv_fin i]];
    vm_compute; split; discriminate.
Defined.

Lemma plus_INFTY_headroom_witness :
  DistanceLabel.plus [# 0; 0] [# 3; INFTY] INFTY !!! 1%fin = [# 3; INFTY] !!! 1%fin + INFTY
  ∧ [# 3; INFTY] !!! 1%fin ≤ DistanceLabel.plus [# 0; 0] [# 3; INFTY] INFTY !!! 1%fin ≤ INT_MAX.
Proof.
  apply (plus_INFTY_headroom [# 0; 0] [# 3; INFTY] INFTY).
  - intros i. inv_fin i; [|intros i; inv_fin i; [|intros i; inv_fin i]];
      vm_compute; split; discriminate.
  - vm_compute; split; discriminate.
Defined.

Lemma plus_broadcast_witness :
  DistanceLabel.plus [# 1; 2] (DistanceLabel.of_int [# 3; 4] 7) 5
  = DistanceLabel.of_int [# 0; 0] (7 + 5).
Proof.
  apply (plus_broadcast [# 1; 2] [# 3; 4] [# 0; 0] 7 5).
  vm_compute; split; discriminate.
Defined.

Lemma getKey_plus_witness :
  DistanceLabel.getKey (DistanceLabel.plus [# 0; 0] [# 3; INFTY] 4) = Ok (3 + 4).
Proof.
  apply (getKey_plus [# 0; 0] [# 3; INFTY] 4 3); [|reflexivity].
  intros i. inv_fin i; [|intros i; inv_fin i; [|intros i; inv_fin i]];
    vm_compute; split; discriminate.
Defined.

Section Relaxation.
Context {K : nat}.

(** What [min] leaves in memory, whether or not the two labels are the
    same object. *)
Lemma min_result (this other : DistanceLabel.addr) (mem : DistanceLabel.memory K)
    (a b : DistanceLabel.t K) :
  mem !! this = Some a →
  mem !! other = Some b →
  DistanceLabel.min this other mem = Ok (<[this := vzip_with Z.min a b]> mem).
Proof.
  intros Ha Hb. destruct (decide (this = other)) as [<-|Hne].
  - assert (a = b) as <- by congruence.
    unfold DistanceLabel.min, for_each_component.
    rewrite (min_loop_aliased this mem a) by done.
    rewrite insert_id; [done|]. rewrite Ha. f_equal.
    apply vec_eq. intros i. rewrite vlookup_zip_with. lia.
  - by apply min_distinct.
Qed.

(** The key after [a.min(b)] is the smaller of the two keys. *)
Theorem getKey_after_min (this other : DistanceLabel.addr)
    (mem : DistanceLabel.memory K) (a b : DistanceLabel.t K) (ka kb : Z) :
  mem !! this = Some a →
  mem !! other = Some b →
  DistanceLabel.getKey a = Ok ka →
  DistanceLabel.getKey b = Ok kb →
  ∃ mem' a',
    DistanceLabel.min this other mem = Ok mem'
    ∧ mem' !! this = Some a'
    ∧ DistanceLabel.getKey a' = Ok (Z.min ka kb).
Proof.
  intros Ha Hb Hka Hkb.
  exists (<[this := vzip_with Z.min a b]> mem), (vzip_with Z.min a b).
  split; [by apply min_result|]. split; [by rewrite lookup_insert_eq|].
  assert (0 < K)%nat as HK.
  { destruct K; [|lia]. revert Hka. unfold DistanceLabel.getKey. by inv_vec a. }
  destruct (getKey_attained_bound a HK) as (ka' & Hka' & Hlowa & ia & Hia).
  destruct (getKey_attained_bound b HK) as (kb' & Hkb' & Hlowb & ib & Hib).
  assert (ka' = ka) as -> by congruence.
  assert (kb' = kb) as -> by congruence.
  apply getKey_unique.
  - intros i. rewrite vlookup_zip_with.
    specialize (Hlowa i). specialize (Hlowb i). lia.
  - destruct (Z.le_gt_cases ka kb).
    + exists ia. rewrite vlookup_zip_with. specialize (Hlowb ia). lia.
    + exists ib. rewrite vlookup_zip_with. specialize (Hlowa ib). lia.
Qed.

(** One relaxation step: the mask [b < a] taken before [a.min(b)] marks
    exactly the components that the minimum takes from [b], the others
    keep their value, no component grows, and afterwards [b < a] marks
    nothing. *)
Theorem min_takes_marked (mask0 mask1 : LabelMask.t K)
    (this other : DistanceLabel.addr) (mem : DistanceLabel.memory K)
    (a b : DistanceLabel.t K) :
  mem !! this = Some a →
  mem !! other = Some b →
  ∃ mem' a',
    DistanceLabel.min this other mem = Ok mem'
    ∧ mem' !! this = Some a'
    ∧ (∀ i, a' !!! i = if (DistanceLabel.less mask0 b a !!! i : bool)
                       then b !!! i else a !!! i)
    ∧ (∀ i, a' !!! i ≤ a !!! i)
    ∧ (∀ i, DistanceLabel.less mask1 b a' !!! i = false).
Proof.
  intros Ha Hb.
  exists (<[this := vzip_with Z.min a b]> mem), (vzip_with Z.min a b).
  split; [by apply min_result|]. split; [by rewrite lookup_insert_eq|].
  split; [|split]; intros i; rewrite ?less_lookup, vlookup_zip_with.
  - destruct (Z.ltb_spec (b !!! i) (a !!! i)); lia.
  - lia.
  - apply Z.ltb_ge. lia.
Qed.

End Relaxation.

Lemma getKey_after_min_witness :
  let mem : DistanceLabel.memory 2 :=
    <[1%positive := [# 3; 9]]> (<[2%positive := [# 5; 4]]> ∅) in
  ∃ mem' a',
    DistanceLabel.min 1%positive 2%positive mem = Ok mem'
    ∧ mem' !! 1%positive = Some a'
    ∧ DistanceLabel.getKey a' = Ok (Z.min 3 4).
Proof.
  cbn zeta.
  apply (getKey_after_min 1%positive 2%positive _ [# 3; 9] [# 5; 4] 3 4);
    reflexivity.
Defined.

Lemma min_takes_marked_witness :
  let mem : DistanceLabel.memory 2 :=
    <[1%positive := [# 3; 9]]> (<[2%positive := [# 5; 4]]> ∅) in
  ∃ mem' a',
    DistanceLabel.min 1%positive 2%positive mem = Ok mem'
    ∧ mem' !! 1%positive = Some a'
    ∧ (∀ i, a' !!! i = if (DistanceLabel.less [# true; true] [# 5; 4] [# 3; 9] !!! i : bool)
                       then [# 5; 4] !!! i else [# 3; 9] !!! i)
    ∧ (∀ i, a' !!! i ≤ [# 3; 9] !!! i)
    ∧ (∀ i, DistanceLabel.less [# true; false] [# 5; 4] a' !!! i = false).
Proof.
  cbn zeta.
  apply (min_takes_marked [# true; true] [# true; false] 1%positive 2%positive _
           [# 3; 9] [# 5; 4]); reflexivity.
Defined.

Section ParentLabelComposition.
Context {K : nat}.

Lemma ParentVertex_eq (p q : ParentVertex.t K) :
  (∀ i, ParentVertex.edges p !!! i = ParentVertex.edges q !!! i) →
  (∀ i, ParentVertex.vertices p !!! i = ParentVertex.vertices q !!! i) →
  p = q.
Proof.
  destruct p as [pe pv], q as [qe qv]. cbn. intros He Hv.
  f_equal; by apply vec_eq.
Qed.

Lemma setVertex_edges (u : Z) (mask : LabelMask.t K) (p : ParentVertex.t K) :
  ParentVertex.edges (ParentVertex.setVertex u mask p) = ParentVertex.edges p.
Proof. done. Qed.

Lemma setEdge_vertices (e : Z) (mask : LabelMask.t K) (p : ParentVertex.t K) :
  ParentVertex.vertices (ParentVertex.setEdge e mask p) = ParentVertex.vertices p.
Proof. done. Qed.

(** With the mask that [LabelMask(i)] constructs, [setVertex] and
    [setEdge] write component [i] and no other, and neither touches the
    other array. *)
Theorem set_single_component (mask0 : LabelMask.t K) (p : ParentVertex.t K)
    (u e : Z) (i : fin K) :
  ∃ m, LabelMask.index_ctor mask0 (Z.of_nat (fin_to_nat i)) = Ok m
       ∧ ParentVertex.setVertex u m p
         = ParentVertex.Build (ParentVertex.edges p)
                              (vinsert i u (ParentVertex.vertices p))
       ∧ ParentVertex.setEdge e m p
         = ParentVertex.Build (vinsert i e (ParentVertex.edges p))
                              (ParentVertex.vertices p).
Proof.
  exists (vinsert i true (vreplicate K false)).
  assert (∀ j, vinsert i true (vreplicate K false) !!! j = bool_decide (j = i)) as Hm.
  { intros j. destruct (decide (j = i)) as [->|Hji].
    - by rewrite vlookup_insert, bool_decide_eq_true_2.
    - by rewrite vlookup_insert_ne, vlookup_replicate, bool_decide_eq_false_2. }
  split; [|split].
  - unfold LabelMask.index_ctor.
    destruct (Z.ltb_spec (Z.of_nat (fin_to_nat i)) 0) as [Hneg|_]; [lia|].
    by rewrite Nat2Z.id, fin_of_nat_to_nat.
  - apply ParentVertex_eq; intros j; [done|].
    rewrite setVertex_vertices, Hm. cbn. case_bool_decide as Hj.
    + subst j. by rewrite vlookup_insert.
    + by rewrite vlookup_insert_ne.
  - apply ParentVertex_eq; intros j; [|done].
    rewrite setEdge_edges, Hm. cbn. case_bool_decide as Hj.
    + subst j. by rewrite vlookup_insert.
    + by rewrite vlookup_insert_ne.
Qed.

(** With a mask that converts to [false], [setVertex] and [setEdge]
    change nothing. *)
Theorem set_unmarked_is_noop (m : LabelMask.t K) (p : ParentVertex.t K) (u e : Z) :
  LabelMask.to_bool m = Ok false →
  ParentVertex.setVertex u m p = p ∧ ParentVertex.setEdge e m p = p.
Proof.
  intros Hm.
  assert (∀ i, m !!! i = false) as Hall.
  { intros i. destruct (m !!! i) eqn:Hi; [|done].
    assert (LabelMask.to_bool m = Ok true) as Ht
      by (apply LabelMask_to_bool_true; by exists i).
    congruence. }
  split; apply ParentVertex_eq; intros i;
    rewrite ?setVertex_vertices, ?setEdge_edges, ?Hall; done.
Qed.

(** Two [setVertex] calls in a row: every component holds the vertex of
    the last call whose mask marks it, and its old value if neither
    does. *)
Theorem setVertex_twice (p : ParentVertex.t K) (u1 u2 : Z)
    (m1 m2 : LabelMask.t K) (i : fin K) :
  ParentVertex.vertices
    (ParentVertex.setVertex u2 m2 (ParentVertex.setVertex u1 m1 p)) !!! i
  = if (m2 !!! i : bool) then u2
    else if (m1 !!! i : bool) then u1
    else ParentVertex.vertices p !!! i.
Proof. by rewrite !setVertex_vertices. Qed.

End ParentLabelComposition.

Lemma set_unmarked_is_noop_witness :
  let p := ParentVertex.Build [# 10; 11] [# 20; 21] in
  ParentVertex.setVertex 5 [# false; false] p = p
  ∧ ParentVertex.setEdge 6 [# false; false] p = p.
Proof.
  cbn zeta.
  apply (set_unmarked_is_noop [# false; false] (ParentVertex.Build [# 10; 11] [# 20; 21]) 5 6).
  reflexivity.
Defined.

(** * Further properties of the container *)

Section ContainerAccess.
Context {K : nat}.
Import StampedDistanceLabelContainer.

Implicit Types (c : StampedDistanceLabelContainer.t K) (v u : Z)
  (L : DistanceLabel.t K) (ops : list (@call K)).

(** The lazy clear cannot be observed: a mutable index access that
    returns leaves the answer of [get] unchanged for every vertex. *)
Theorem index_invisible_to_get c v c1 :
  index c v = Ok c1 → ∀ u, get c1 u = get c u.
Proof.
  intros (Hv & ts & Hts & [[_ ->]|[Hlt ->]])%index_Ok; [done|].
  intros u. unfold get, vector_at. cbn.
  destruct (Z.ltb_spec u 0) as [?|Hu]; [done|].
  destruct (decide (Z.to_nat u = Z.to_nat v)) as [->|Hne].
  - assert (Z.to_nat v < length (timestamps c))%nat as Hlt1
      by (by eapply lookup_lt_Some).
    assert (Z.to_nat v < length (distanceLabels c))%nat as Hlt2 by lia.
    rewrite (list_lookup_insert_eq (timestamps c)) by done.
    rewrite (list_lookup_insert_eq (distanceLabels c)) by done.
    rewrite Hts. cbn. rewrite Z.eqb_refl.
    destruct (Z.eqb_spec ts (clock c)); [lia|done].
  - by rewrite !list_lookup_insert_ne.
Qed.

(** A second mutable index access to the same vertex, with no reset in
    between, changes nothing. *)
Theorem index_twice c v c1 :
  index c v = Ok c1 → index c1 v = Ok c1.
Proof.
  intros Hidx.
  pose proof Hidx as (Hv & ts & Hts & [[_ ->]|[Hlt ->]])%index_Ok; [done|].
  unfold index, vector_at. cbn. rewrite length_insert.
  destruct (Z.ltb_spec v 0) as [?|_]; [lia|].
  destruct (Z.leb_spec (Z.of_nat (length (distanceLabels c))) v) as [?|_]; [lia|].
  rewrite (list_lookup_insert_eq (timestamps c)) by (by eapply lookup_lt_Some).
  cbn. by rewrite Z.eqb_refl.
Qed.

Lemma run_clock ops c c' :
  run ops c = Ok c' →
  0 ≤ clock c →
  clock c + Z.of_nat (resets ops) ≤ INT_MAX →
  clock c' = clock c + Z.of_nat (resets ops).
Proof.
  revert c. induction ops as [|op ops IH]; intros c; cbn [run].
  - intros [= <-] _ _. cbn. lia.
  - destruct (step c op) as [c1|] eqn:E; [|done]. cbn [mbind outcome_bind].
    intros Hrun Hc Hle. destruct op as [|u|u L|u]; cbn [resets] in *.
    + cbn in E. rewrite init_no_overflow in E by lia. injection E as <-.
      rewrite (IH _ Hrun); cbn; lia.
    + assert (clock c1 = clock c) as Hc1.
      { cbn in E. by apply index_Ok in E as (_ & ts & _ & [[_ ->]|[_ ->]]). }
      rewrite (IH _ Hrun); lia.
    + assert (clock c1 = clock c) as Hc1.
      { cbn in E. by apply store_Ok in E as [_ ->]. }
      rewrite (IH _ Hrun); lia.
    + assert (c1 = c) as ->.
      { cbn in E. destruct (get c u); [|done]. by injection E. }
      by apply IH.
Qed.

End ContainerAccess.

Section ContainerLifecycle.
Context {K : nat}.
Import StampedDistanceLabelContainer.

Implicit Types (c : StampedDistanceLabelContainer.t K) (v u : Z)
  (L : DistanceLabel.t K) (ops : list (@call K)).

Lemma run_sizes (n : Z) labels0 stamps0 c0 ops c :
  construct n labels0 stamps0 = Ok c0 →
  run ops c0 = Ok c →
  0 ≤ n
  ∧ length (distanceLabels c) = Z.to_nat n
  ∧ length (timestamps c) = Z.to_nat n.
Proof.
  intros (Hn & HL & Hts & _)%construct_Ok [-> ->]%run_lengths.
  rewrite HL, Hts, length_fmap, length_seq, length_replicate. done.
Qed.

Lemma reset_makes_stale (n : Z) labels0 stamps0 c0 ops1 ops2 c' v :
  construct n labels0 stamps0 = Ok c0 →
  run (ops1 ++ Init :: ops2) c0 = Ok c' →
  0 ≤ v < n →
  untouched v ops2 →
  stale c' v.
Proof.
  intros Hc0 Hrun Hv Hops. rewrite run_app in Hrun.
  destruct (run ops1 c0) as [c1|] eqn:E1; [|done]. cbn in Hrun.
  destruct (init c1) as [c2|] eqn:E2; [|done]. cbn in Hrun.
  pose proof (construct_well_formed _ _ _ _ Hc0) as Hwf0.
  destruct (run_well_formed _ _ _ Hwf0 E1) as [Hlen1 Hc1].
  destruct (run_sizes _ _ _ _ _ _ Hc0 E1) as (_ & _ & Hsz).
  apply (run_stale ops2 c2); try done.
  - by eapply init_clock_ahead.
  - eapply init_stale; [done|lia|done].
Qed.

(** The sizes are fixed at construction: after any calls both vectors
    still have [numVertices] elements. *)
Theorem sizes_never_change (n : Z) labels0 stamps0 c0 ops c :
  construct n labels0 stamps0 = Ok c0 →
  run ops c0 = Ok c →
  Z.of_nat (length (distanceLabels c)) = n
  ∧ Z.of_nat (length (timestamps c)) = n.
Proof.
  intros Hc0 Hrun.
  destruct (run_sizes _ _ _ _ _ _ Hc0 Hrun) as (Hn & -> & ->). lia.
Qed.

(** The clock counts the resets: after construction and any calls of
    which at most [INT_MAX] are [init], the clock is the number of
    [init] calls made. *)
Theorem clock_counts_resets (n : Z) labels0 stamps0 c0 ops c :
  construct n labels0 stamps0 = Ok c0 →
  run ops c0 = Ok c →
  Z.of_nat (resets ops) ≤ INT_MAX →
  clock c = Z.of_nat (resets ops).
Proof.
  intros Hc0 Hrun Hle.
  apply construct_Ok in Hc0 as (_ & _ & _ & Hclk).
  rewrite (run_clock _ _ _ Hrun); lia.
Qed.

(** On a container that went through any calls since construction, the
    mutable index access returns exactly on the vertices [0 .. n-1] and
    fails its assertion on [v] otherwise; [get], which asserts nothing,
    has a result exactly on the same vertices. *)
Theorem access_exactly_in_range (n : Z) labels0 stamps0 c0 ops c v :
  construct n labels0 stamps0 = Ok c0 →
  run ops c0 = Ok c →
  ((∃ c', index c v = Ok c') ↔ 0 ≤ v < n)
  ∧ ((∃ L, get c v = Ok L) ↔ 0 ≤ v < n)
  ∧ (v < 0 → index c v = Fault assert_nonneg)
  ∧ (n ≤ v → 0 ≤ v → index c v = Fault assert_in_range).
Proof.
  intros Hc0 Hrun.
  pose proof (construct_well_formed _ _ _ _ Hc0) as Hwf0.
  pose proof (run_well_formed _ _ _ Hwf0 Hrun) as Hwf.
  destruct (run_sizes _ _ _ _ _ _ Hc0 Hrun) as (Hn & HL & HT).
  split; [|split; [|split]].
  - split.
    + intros [c' (Hv & _)%index_Ok]. lia.
    + intros Hv. apply index_total; [done|lia].
  - split.
    + intros [L HL']. unfold get in HL'.
      destruct (vector_at (timestamps c) v) as [ts|] eqn:Ets; [|done].
      apply vector_at_Ok in Ets as [Hv Ets]. apply lookup_lt_Some in Ets. lia.
    + intros Hv. unfold get.
      destruct (vector_at_in_range (timestamps c) v) as [ts ->]; [lia|]. cbn.
      destruct (ts =? clock c); [|by eexists].
      apply vector_at_in_range. lia.
  - intros Hv. unfold index. by destruct (Z.ltb_spec v 0); [|lia].
  - intros Hv Hv0. unfold index. destruct (Z.ltb_spec v 0); [lia|].
    by destruct (Z.leb_spec (Z.of_nat (length (distanceLabels c))) v); [|lia].
Qed.

(** The first mutable index access to a vertex after a reset hands out a
    label that holds INFTY in every component, stamped with the clock. *)
Theorem first_access_after_reset (n : Z) labels0 stamps0 c0 ops1 ops2 c' v :
  construct n labels0 stamps0 = Ok c0 →
  run (ops1 ++ Init :: ops2) c0 = Ok c' →
  0 ≤ v < n →
  untouched v ops2 →
  ∃ c1, index c' v = Ok c1 ∧ holds c1 v INFTY_label.
Proof.
  intros Hc0 Hrun Hv Hops.
  pose proof (construct_well_formed _ _ _ _ Hc0) as Hwf0.
  pose proof (run_well_formed _ _ _ Hwf0 Hrun) as Hwf.
  destruct (run_sizes _ _ _ _ _ _ Hc0 Hrun) as (_ & HL & HT).
  destruct (reset_makes_stale _ _ _ _ _ _ _ _ Hc0 Hrun Hv Hops)
    as (_ & ts & Hts & Hlt).
  destruct (index_total c' v Hwf) as [c1 Hc1]; [lia|].
  exists c1. split; [done|].
  apply index_Ok in Hc1 as (_ & ts' & Hts' & [[Heq _]|[_ ->]]).
  - rewrite Hts in Hts'. injection Hts' as <-. lia.
  - split; [lia|]. cbn. split; apply list_lookup_insert_eq; lia.
Qed.

Lemma step_total c op (n : Z) :
  well_formed c →
  Z.of_nat (length (distanceLabels c)) = n →
  within n [op] →
  clock c + Z.of_nat (resets [op]) ≤ INT_MAX →
  ∃ c1, step c op = Ok c1.
Proof.
  intros Hwf Hn Hop%Forall_cons_1 Hclk. destruct Hop as [Hop _].
  pose proof Hwf as (Hlen & [Hc0 _] & _).
  destruct op as [|v|v L|v]; cbn [step].
  - rewrite init_no_overflow; [by eexists|]. cbn in Hclk. lia.
  - apply index_total; [done|lia].
  - unfold store.
    destruct (vector_at_in_range (distanceLabels c) v) as [L0 ->]; [lia|].
    by eexists.
  - unfold get.
    destruct (vector_at_in_range (timestamps c) v) as [ts ->]; [lia|]. cbn.
    destruct (ts =? clock c); [|by eexists].
    destruct (vector_at_in_range (distanceLabels c) v) as [L0 ->]; [lia|].
    by eexists.
Qed.

Lemma run_total ops c (n : Z) :
  well_formed c →
  Z.of_nat (length (distanceLabels c)) = n →
  within n ops →
  clock c + Z.of_nat (resets ops) ≤ INT_MAX →
  ∃ c', run ops c = Ok c'.
Proof.
  revert c. induction ops as [|op ops IH]; intros c Hwf Hn Hops Hclk.
  - by eexists.
  - apply Forall_cons in Hops as [Hop Hops]. rewrite resets_cons in Hclk.
    destruct (step_total c op n) as [c1 Hc1]; try done.
    { by apply Forall_singleton. }
    { lia. }
    cbn [run]. rewrite Hc1. cbn. apply IH; try done.
    + by eapply step_well_formed.
    + destruct (step_lengths _ _ _ Hc1) as [_ ->]. done.
    + rewrite (step_clock _ _ _ (proj1 (proj1 (proj2 Hwf))) Hc1). lia.
Qed.

(** A sequence of calls on the vertices of the graph with at most
    [INT_MAX] resets returns, and afterwards no timestamp is ahead of the
    clock, the mutable index access does not fail its assertion
    [timestamps[v] < clock], and on every vertex of the graph it
    returns. *)
Theorem bounded_run_keeps_stamps_behind (n : Z) labels0 stamps0 c0 ops :
  construct n labels0 stamps0 = Ok c0 →
  within n ops →
  Z.of_nat (resets ops) ≤ INT_MAX →
  ∃ c, run ops c0 = Ok c
       ∧ Forall (fun ts => ts ≤ clock c) (timestamps c)
       ∧ (∀ v, index c v ≠ Fault assert_stamp_behind)
       ∧ (∀ v, 0 ≤ v < n → ∃ c', index c v = Ok c').
Proof.
  intros Hc0 Hops Hle.
  pose proof (construct_well_formed _ _ _ _ Hc0) as Hwf0.
  destruct (run_total ops c0 n Hwf0) as [c Hc]; try done.
  - apply construct_Ok in Hc0 as (Hn & -> & _ & _).
    rewrite length_fmap, length_seq. lia.
  - apply construct_Ok in Hc0 as (_ & _ & _ & ->). lia.
  - exists c. split; [done|]. by eapply timestamps_never_ahead.
Qed.

End ContainerLifecycle.

Section ContainerLifecycleExamples.
Import StampedDistanceLabelContainer.

Lemma index_invisible_to_get_witness :
  index (Build [[# 7; 7]; [# 3; 4]] [0; 0] 1) 0
  = Ok (Build [[# INFTY; INFTY]; [# 3; 4]] [1; 0] 1)
  ∧ get (Build [[# INFTY; INFTY]; [# 3; 4]] [1; 0] 1) 0
    = get (Build [[# 7; 7]; [# 3; 4]] [0; 0] 1) 0.
Proof.
  split; [reflexivity|].
  apply (index_invisible_to_get (Build [[# 7; 7]; [# 3; 4]] [0; 0] 1) 0).
  reflexivity.
Defined.

Lemma index_twice_witness :
  index (Build [[# INFTY; INFTY]; [# 3; 4]] [1; 0] 1) 0
  = Ok (Build [[# INFTY; INFTY]; [# 3; 4]] [1; 0] 1).
Proof.
  apply (index_twice (Build [[# 7; 7]; [# 3; 4]] [0; 0] 1) 0).
  reflexivity.
Defined.

Lemma sizes_never_change_witness :
  let c := Build [[# 7; 7]; [# INFTY; INFTY]; [# 0; 0]] [1; 2; 0] 2 in
  Z.of_nat (length (distanceLabels c)) = 3
  ∧ Z.of_nat (length (timestamps c)) = 3.
Proof.
  cbn zeta.
  apply (sizes_never_change 3 (fun _ => [# 0; 0]) (fun _ => 0)
           (Build [[# 0; 0]; [# 0; 0]; [# 0; 0]] [0; 0; 0] 0)
           [Init; MutIndex 0; Store 0 [# 7; 7]; Init; Get 1; MutIndex 1]);
    reflexivity.
Defined.

Lemma clock_counts_resets_witness :
  clock (Build [[# 7; 7]; [# INFTY; INFTY]; [# 0; 0]] [1; 2; 0] 2)
  = Z.of_nat (resets [Init; MutIndex 0; Store 0 [# 7; 7]; Init; Get 1; MutIndex 1]).
Proof.
  apply (clock_counts_resets 3 (fun _ => [# 0; 0]) (fun _ => 0)
           (Build [[# 0; 0]; [# 0; 0]; [# 0; 0]] [0; 0; 0] 0)
           [Init; MutIndex 0; Store 0 [# 7; 7]; Init; Get 1; MutIndex 1]).
  - reflexivity.
  - reflexivity.
  - vm_compute. discriminate.
Defined.

Lemma access_exactly_in_range_witness :
  let c := Build [[# 7; 7]; [# 0; 0]; [# 0; 0]] [1; 0; 0] 1 in
  ((∃ c', index c 3 = Ok c') ↔ 0 ≤ 3 < 3)
  ∧ ((∃ L, get c 3 = Ok L) ↔ 0 ≤ 3 < 3)
  ∧ (3 < 0 → index c 3 = Fault assert_nonneg)
  ∧ (3 ≤ 3 → 0 ≤ 3 → index c 3 = Fault assert_in_range).
Proof.
  cbn zeta.
  apply (access_exactly_in_range 3 (fun _ => [# 0; 0]) (fun _ => 0)
           (Build [[# 0; 0]; [# 0; 0]; [# 0; 0]] [0; 0; 0] 0)
           [Init; MutIndex 0; Store 0 [# 7; 7]]);
    reflexivity.
Defined.

Lemma first_access_after_reset_witness :
  ∃ c1, index (Build [[# 7; 7]; [# 0; 0]; [# 0; 0]] [1; 0; 0] 2) 0 = Ok c1
        ∧ holds c1 0 (@INFTY_label 2).
Proof.
  apply (first_access_after_reset 3 (fun _ => [# 0; 0]) (fun _ => 0)
           (Build [[# 0; 0]; [# 0; 0]; [# 0; 0]] [0; 0; 0] 0)
           [Init; MutIndex 0; Store 0 [# 7; 7]] [Get 1] _ 0).
  - reflexivity.
  - reflexivity.
  - lia.
  - repeat constructor; discriminate.
Defined.

Lemma bounded_run_keeps_stamps_behind_witness :
  ∃ c, run [Init; MutIndex 0; Store 0 [# 7; 7]; Init; Get 1; MutIndex 1]
           (Build [[# 0; 0]; [# 0; 0]; [# 0; 0]] [0; 0; 0] 0)
       = Ok c
       ∧ Forall (fun ts => ts ≤ clock c) (timestamps c)
       ∧ (∀ v, index c v ≠ Fault assert_stamp_behind)
       ∧ (∀ v, 0 ≤ v < 3 → ∃ c', index c v = Ok c').
Proof.
  apply (bounded_run_keeps_stamps_behind 3 (fun _ => [# 0; 0]) (fun _ => 0)).
  - reflexivity.
  - repeat constructor; lia.
  - vm_compute. discriminate.
Defined.

End ContainerLifecycleExamples.

(** * XatfRoadCategoryAttribute *)

Section XatfRoadCategoryProperties.
Import XatfRoadCategoryAttribute.

(** The enumerator values are pairwise distinct and are exactly the
    numbers 1 to 15. *)
Theorem XatfRoadCategory_values :
  (∀ c d, value c = value d → c = d)
  ∧ (∀ z, (∃ c, value c = z) ↔ 1 ≤ z ≤ 15).
Proof.
  split.
  - intros c d. destruct c, d; cbn; intros H; first [reflexivity|discriminate H].
  - intros z. split.
    + intros [c <-]. destruct c; cbn; lia.
    + intros Hz.
      assert (z = 1 ∨ z = 2 ∨ z = 3 ∨ z = 4 ∨ z = 5 ∨ z = 6 ∨ z = 7 ∨ z = 8
              ∨ z = 9 ∨ z = 10 ∨ z = 11 ∨ z = 12 ∨ z = 13 ∨ z = 14 ∨ z = 15)
        as H by lia.
      repeat (destruct H as [->|H]); subst;
        [exists MOTORWAY_FAST | exists MOTORWAY_MEDIUM | exists MOTORWAY_SLOW
        |exists NATIONAL_ROAD_FAST | exists NATIONAL_ROAD_MEDIUM | exists NATIONAL_ROAD_SLOW
        |exists REGIONAL_ROAD_FAST | exists REGIONAL_ROAD_MEDIUM | exists REGIONAL_ROAD_SLOW
        |exists URBAN_STREET_FAST | exists URBAN_STREET_MEDIUM | exists URBAN_STREET_SLOW
        |exists FERRY | exists UNUSED | exists FOREST_ROAD]; reflexivity.
Qed.

(** Setting the category of an edge of the graph returns, keeps the
    number of edges, is read back by [xatfRoadCategory] on that edge, and
    leaves what is read on every other edge. *)
Theorem setXatfRoadCategory_then_read (values : list XatfRoadCategory)
    (e : Z) (val : XatfRoadCategory) :
  0 ≤ e < Z.of_nat (length values) →
  ∃ values',
    setXatfRoadCategory values e val = Ok values'
    ∧ length values' = length values
    ∧ xatfRoadCategory values' e = Ok val
    ∧ ∀ e', e' ≠ e → xatfRoadCategory values' e' = xatfRoadCategory values e'.
Proof.
  intros He. exists (<[Z.to_nat e := val]> values).
  unfold setXatfRoadCategory, xatfRoadCategory. rewrite length_insert.
  destruct (Z.ltb_spec e 0) as [?|_]; [lia|].
  destruct (Z.leb_spec (Z.of_nat (length values)) e) as [?|_]; [lia|].
  split; [done|]. split; [done|]. split.
  - apply vector_at_Ok. split; [lia|]. apply list_lookup_insert_eq. lia.
  - intros e' Hne.
    destruct (Z.ltb_spec e' 0) as [?|He']; [done|].
    destruct (Z.leb_spec (Z.of_nat (length values)) e'); [done|].
    unfold vector_at. destruct (Z.ltb_spec e' 0); [lia|].
    rewrite list_lookup_insert_ne; [done|lia].
Qed.

(** Outside the edges of the graph neither accessor returns: the
    assertion on the edge fails, the first one for a negative edge and
    the second one for an edge from the number of edges on; in
    particular both fail on every edge of an attribute without edges. *)
Theorem XatfRoadCategory_edge_asserted (values : list XatfRoadCategory)
    (e : Z) (val : XatfRoadCategory) :
  ¬ (0 ≤ e < Z.of_nat (length values)) →
  ∃ f, xatfRoadCategory values e = Fault f
       ∧ setXatfRoadCategory values e val = Fault f
       ∧ f = (if e <? 0 then assert_nonneg else assert_in_range).
Proof.
  intros He. unfold setXatfRoadCategory, xatfRoadCategory.
  destruct (Z.ltb_spec e 0) as [?|He0]; [by eexists|].
  destruct (Z.leb_spec (Z.of_nat (length values)) e) as [?|?]; [by eexists|lia].
Qed.

Lemma setXatfRoadCategory_then_read_witness :
  ∃ values',
    setXatfRoadCategory [UNUSED; FERRY; UNUSED] 2 MOTORWAY_SLOW = Ok values'
    ∧ length values' = length [UNUSED; FERRY; UNUSED]
    ∧ xatfRoadCategory values' 2 = Ok MOTORWAY_SLOW
    ∧ ∀ e', e' ≠ 2 →
        xatfRoadCategory values' e' = xatfRoadCategory [UNUSED; FERRY; UNUSED] e'.
Proof.
  apply (setXatfRoadCategory_then_read [UNUSED; FERRY; UNUSED] 2 MOTORWAY_SLOW).
  cbn. lia.
Defined.

Lemma XatfRoadCategory_edge_asserted_witness :
  ∃ f, xatfRoadCategory [] 0 = Fault f
       ∧ setXatfRoadCategory [] 0 FERRY = Fault f
       ∧ f = (if 0 <? 0 then assert_nonneg else assert_in_range).
Proof. apply (XatfRoadCategory_edge_asserted [] 0 FERRY). cbn. lia. Defined.

End XatfRoadCategoryProperties.

(** * SystemOptimum at zero flow *)

Section SystemOptimumZeroFlow.
Import SystemOptimum.

(** At zero flow the weight is the cost itself, provided the derivative
    there is finite and the cost is not a zero. *)
Theorem getEdgeWeight_zero_flow (f : TravelCostFunction) (e : Z) (s : bool) :
  is_finite (derivative f e (S754_zero s)) = true →
  is_zero (cost f e (S754_zero s)) = false →
  getEdgeWeight f e (S754_zero s) = cost f e (S754_zero s).
Proof.
  unfold getEdgeWeight, fadd, fmul.
  destruct (derivative f e (S754_zero s)) as [sd| | |sd md ed];
    destruct (cost f e (S754_zero s)) as [sc|sc| |sc mc ec]; cbn; done.
Qed.

Lemma getEdgeWeight_zero_flow_witness :
  getEdgeWeight (linear (float_of_Z 2) (float_of_Z 5)) 7 (S754_zero false)
  = cost (linear (float_of_Z 2) (float_of_Z 5)) 7 (S754_zero false).
Proof.
  apply (getEdgeWeight_zero_flow (linear (float_of_Z 2) (float_of_Z 5)) 7 false);
    reflexivity.
Defined.

End SystemOptimumZeroFlow.
